(** * Chart post-processing of the astrology service ([app.py])

    A shallow embedding of the pure layer of [app.py]: angle and sign
    utilities, the aspect matcher, the house assigner, request validation,
    the chart builder and the transit comparator.

    Numbers.  Python [float] values are embedded as exact rationals [Q]:
    [+], [-], [*], [/], [abs], [%], [//] and [round] are the exact
    operations, Python's numeric [==] is [Qeq] (written [==]) and the
    comparisons are [Qle]/[Qlt].  The rounding error of binary64 is not part
    of this model.

    Collaborators.  The ephemeris ([swe.calc_ut], [swe.houses]), the
    geocoder and the time conversion are oracles: parameters of the
    sections that use them. *)

From Stdlib Require Import ZArith QArith Qround Qabs Qminmax Lqa Lia List String Bool.
From Stdlib Require Import Sorted.
Import ListNotations.
Open Scope Q_scope.

(** ** Python arithmetic on exact rationals *)

Module Py.

(** [x < y] and [x <= y] as tests. *)
Definition leb (x y : Q) : bool := Qle_bool x y.
Definition ltb (x y : Q) : bool := negb (Qle_bool y x).

(** [x % m] for floats: the result has the sign of the divisor,
    [x - m * floor (x / m)]. *)
Definition fmod (x m : Q) : Q := x - m * inject_Z (Qfloor (x / m)).

(** [x // m] for floats. *)
Definition floordiv (x m : Q) : Z := Qfloor (x / m).

(** Nearest integer, ties to the even one. *)
Definition round_half_even (x : Q) : Z :=
  let f := Qfloor x in
  let r := x - inject_Z f in
  match Qcompare r (1 # 2) with
  | Lt => f
  | Gt => (f + 1)%Z
  | Eq => if Z.even f then f else (f + 1)%Z
  end.

(** [round(x, n)]: the nearest multiple of [10^-n], ties to even.  The value
    is kept in lowest terms. *)
Definition round (x : Q) (n : nat) : Q :=
  let s := inject_Z (10 ^ Z.of_nat n) in
  Qred (inject_Z (round_half_even (x * s)) / s).

End Py.

(** ** Angle and sign utilities *)

Definition SIGNS : list string :=
  ["Aries"; "Taurus"; "Gemini"; "Cancer"; "Leo"; "Virgo";
   "Libra"; "Scorpio"; "Sagittarius"; "Capricorn"; "Aquarius"; "Pisces"]%string.

Definition ASPECTS : list (Q * string) :=
  [(0, "conjunction"); (60, "sextile"); (90, "square");
   (120, "trine"); (180, "opposition")]%string.

Definition NATAL_ORB : Q := 6.
Definition TRANSIT_ORB : Q := 3.

(** [norm360]: [d = d % 360.0], then [d + 360.0 if d < 0 else d]. *)
Definition norm360 (d : Q) : Q :=
  let d := Py.fmod d 360 in
  if Py.ltb d 0 then d + 360 else d.

(** [sign_name]: [s = int(lon // 30) % 12], result [(SIGNS[s], lon % 30)].
    [s] is always in [0..11], so the list access never fails. *)
Definition sign_index (lon : Q) : Z := (Py.floordiv lon 30 mod 12)%Z.

Definition sign_name (lon : Q) : string * Q :=
  (nth (Z.to_nat (sign_index lon)) SIGNS EmptyString, Py.fmod lon 30).

(** ** Aspect matcher *)

(** The [for ang, name in ASPECTS] loop, run on the remaining entries. *)
Fixpoint aspect_scan (d orb : Q) (aspects : list (Q * string))
  : option (string * Q) :=
  match aspects with
  | [] => None
  | (ang, name) :: rest =>
      let diff := Qabs (d - ang) in
      if Py.leb diff orb then Some (name, Py.round diff 2)
      else aspect_scan d orb rest
  end.

(** The separation of two longitudes along the shortest arc. *)
Definition separation (a b : Q) : Q :=
  let d := Py.fmod (Qabs (a - b)) 360 in
  if Py.ltb 180 d then 360 - d else d.

(** [aspect_between]: [Some (name, round(diff, 2))] for the pair
    [(name, round(diff, 2))], [None] for [(None, None)]. *)
Definition aspect_between (a b orb : Q) : option (string * Q) :=
  aspect_scan (separation a b) orb ASPECTS.

(** ** The aspect matcher as the specification describes it *)

Module AspectSpec.

(** The five recognised angles, in ascending order. *)
Definition ANGLES : list Q := [0; 60; 90; 120; 180].

(** The kind that goes with each angle. *)
Definition KINDS : list (Q * string) :=
  [(0, "conjunction"); (60, "sextile"); (90, "square");
   (120, "trine"); (180, "opposition")]%string.

(** Raw separation [|a - b| mod 360], reflected to [360 - d] when it
    exceeds 180. *)
Definition shortest_arc (a b : Q) : Q :=
  let d := Py.fmod (Qabs (a - b)) 360 in
  if Qlt_le_dec 180 d then 360 - d else d.

Definition deviation (d ang : Q) : Q := Qabs (d - ang).

(** [ang] is within [orb] of [d] and no smaller recognised angle is. *)
Definition first_within (d orb ang : Q) : Prop :=
  deviation d ang <= orb
  /\ forall ang', In ang' ANGLES -> ang' < ang -> orb < deviation d ang'.

(** What the matcher is to answer for [a], [b] and [orb]. *)
Inductive answer (a b orb : Q) : option (string * Q) -> Prop :=
| answer_match ang name :
    In (ang, name) KINDS ->
    first_within (shortest_arc a b) orb ang ->
    answer a b orb
      (Some (name, Py.round (deviation (shortest_arc a b) ang) 2))
| answer_none :
    (forall ang, In ang ANGLES -> orb < deviation (shortest_arc a b) ang) ->
    answer a b orb None.

End AspectSpec.

(** ** House assigner *)

(** The membership test of the loop body:
    [a <= L < b or (b < a and (L >= a or L < (b % 360)))]. *)
Definition house_test (L a b : Q) : bool :=
  (Py.leb a L && Py.ltb L b)
  || (Py.ltb b a && (Py.leb a L || Py.ltb L (Py.fmod b 360))).

(** [a, b = c2[i], c2[i+1]] followed by the test; [None] is an index out of
    range. *)
Definition house_test_at (L : Q) (c2 : list Q) (i : nat) : option bool :=
  match nth_error c2 i, nth_error c2 (i + 1) with
  | Some a, Some b => Some (house_test L a b)
  | _, _ => None
  end.

(** How the [for i in range(12)] loop ends. *)
Inductive scan : Type :=
| Returned (h : nat)      (* [return i + 1] inside the loop *)
| Fell_through            (* the loop ran out: the [return 12] after it *)
| Index_error.            (* a list access out of range *)

Fixpoint house_loop (L : Q) (c2 : list Q) (range : list nat) : scan :=
  match range with
  | [] => Fell_through
  | i :: rest =>
      match house_test_at L c2 i with
      | Some true => Returned (i + 1)
      | Some false => house_loop L c2 rest
      | None => Index_error
      end
  end.

(** [c2 = c + [c[0] + 360]] with [c] the normalised cusps; [None] when
    [c[0]] does not exist. *)
Definition sentinel_cusps (cusps : list Q) : option (list Q) :=
  let c := map norm360 cusps in
  match c with
  | [] => None
  | c0 :: _ => Some (c ++ [c0 + 360])
  end.

Definition house_scan (L : Q) (cusps : list Q) : scan :=
  match sentinel_cusps cusps with
  | None => Index_error
  | Some c2 => house_loop (norm360 L) c2 (seq 0 12)
  end.

(** [house_for]; [None] stands for the [IndexError] of a cusp list that is
    too short. *)
Definition house_for (L : Q) (cusps : list Q) : option nat :=
  match house_scan L cusps with
  | Returned h => Some h
  | Fell_through => Some 12%nat
  | Index_error => None
  end.

(** Some index of the loop satisfies the membership test. *)
Definition some_index_matches (L : Q) (cusps : list Q) : Prop :=
  exists c2 i, sentinel_cusps cusps = Some c2 /\ (i < 12)%nat
               /\ house_test_at (norm360 L) c2 i = Some true.

(** ** Houses as the specification describes them *)

Module HouseSpec.

(** The way forward along the circle from [from] to [to], in [[0, 360)]. *)
Definition arc (from to : Q) : Q := Py.fmod (to - from) 360.

(** The cusp that ends house [i] (0-based): cusp [i + 1], and cusp 0 again
    after the last one. *)
Definition next_cusp (cusps : list Q) (i : nat) : option Q :=
  nth_error (cusps ++ firstn 1 cusps) (i + 1).

(** House [i] spans from cusp [i] (inclusive) to the next cusp
    (exclusive), wrapping at 360. *)
Definition spans (cusps : list Q) (i : nat) (L : Q) : Prop :=
  exists a b, nth_error cusps i = Some a
              /\ next_cusp cusps i = Some b
              /\ arc a L < arc a b.

Fixpoint increasing (l : list Q) : bool :=
  match l with
  | a :: (b :: _) as rest => Py.ltb a b && increasing rest
  | _ => true
  end.

(** Where each cusp lies on the way round from the first one. *)
Definition offsets (cusps : list Q) : list Q :=
  match cusps with
  | [] => []
  | c0 :: _ => map (arc c0) cusps
  end.

(** [v] falls at position [i] of an increasing list: at or after entry
    [i] and before the next entry, when there is one. *)
Definition located (o : list Q) (v : Q) (i : nat) : Prop :=
  exists x, nth_error o i = Some x /\ x <= v
            /\ forall y, nth_error o (i + 1) = Some y -> v < y.

(** Twelve cusps that partition the circle: going round once from the
    first cusp, the others are met in order, each strictly after the one
    before. *)
Definition well_formed (cusps : list Q) : bool :=
  (List.length cusps =? 12)%nat && increasing (offsets cusps).

End HouseSpec.

Definition equal_cusps : list Q :=
  [0; 30; 60; 90; 120; 150; 180; 210; 240; 270; 300; 330].

Definition shifted_cusps : list Q :=
  [10; 40; 70; 100; 130; 160; 190; 220; 250; 280; 310; 340].

(** ** Transit comparator: days to exact *)

(** [abs(t["speed"]) or 1e-6]: the absolute speed, and [1e-6] in its place
    when it is zero. *)
Definition rel_speed (speed : Q) : Q :=
  if Qeq_bool (Qabs speed) 0 then 1e-6 else Qabs speed.

(** [abs(((t["lon"] - n["lon"]) + 540) % 360 - 180)]. *)
Definition delta (tlon nlon : Q) : Q :=
  Qabs (Py.fmod ((tlon - nlon) + 540) 360 - 180).

(** [round(delta / (rel_speed * 24.0), 1)]. *)
Definition approx_days (tlon nlon speed : Q) : Q :=
  Py.round (delta tlon nlon / (rel_speed speed * 24)) 1.

(** The estimate as the specification words it, with [epsilon = 1e-6]. *)
Module TransitSpec.

Definition epsilon : Q := 1e-6.

Definition approx_days (tlon nlon speed : Q) : Q :=
  Py.round (delta tlon nlon / (Qmax (Qabs speed) epsilon * 24)) 1.

End TransitSpec.

(** ** Planets *)

(** The body identifiers of the ephemeris, [swe.SUN] to [swe.PLUTO]. *)
Inductive body : Type :=
| SUN | MOON | MERCURY | VENUS | MARS | JUPITER | SATURN | URANUS | NEPTUNE
| PLUTO.

Definition PLANETS : list (string * body) :=
  [("Sun", SUN); ("Moon", MOON); ("Mercury", MERCURY); ("Venus", VENUS);
   ("Mars", MARS); ("Jupiter", JUPITER); ("Saturn", SATURN);
   ("Uranus", URANUS); ("Neptune", NEPTUNE); ("Pluto", PLUTO)]%string.

Module Planet.

(** A planet entry; [house] is [None] until [natal] sets the key. *)
Record t : Type := {
  name : string;
  lon : Q;
  sign : string;
  deg_in_sign : Q;
  speed : Q;
  house : option nat
}.

Definition set_house (pl : t) (h : nat) : t :=
  {| name := name pl; lon := lon pl; sign := sign pl;
     deg_in_sign := deg_in_sign pl; speed := speed pl; house := Some h |}.

End Planet.

Module Hit.

(** An entry of [hits] in [transits]. *)
Record t : Type := {
  transiting : string;
  natal : string;
  type : string;
  orb : Q;
  approx_days_to_exact : Q
}.

End Hit.

(** The two nested loops of [transits] that fill [hits]. *)
Definition hits_of (t : Planet.t) (natal_planets : list Planet.t)
  : list Hit.t :=
  flat_map
    (fun n =>
       match aspect_between (Planet.lon t) (Planet.lon n) TRANSIT_ORB with
       | Some (typ, orb) =>
           [{| Hit.transiting := Planet.name t;
               Hit.natal := Planet.name n;
               Hit.type := typ;
               Hit.orb := orb;
               Hit.approx_days_to_exact :=
                 approx_days (Planet.lon t) (Planet.lon n) (Planet.speed t) |}]
       | None => []
       end)
    natal_planets.

Definition transit_hits (t_planets natal_planets : list Planet.t)
  : list Hit.t :=
  flat_map (fun t => hits_of t natal_planets) t_planets.

(** A slow transiting body one degree past a natal point. *)
Definition slow_transit : Planet.t :=
  {| Planet.name := "Mars"; Planet.lon := 1; Planet.sign := "Aries";
     Planet.deg_in_sign := 1; Planet.speed := 1e-7; Planet.house := None |}.

Definition natal_point : Planet.t :=
  {| Planet.name := "Sun"; Planet.lon := 0; Planet.sign := "Aries";
     Planet.deg_in_sign := 0; Planet.speed := 1; Planet.house := None |}.

(** ** Request payload *)

Module Payload.

(** The JSON object of a request: [p.get(key)] for each key that is read.
    Text fields are strings when present, [lat] and [lon] numbers; [None]
    is a key that is absent or null. *)
Record t : Type := {
  date : option string;
  time : option string;
  city : option string;
  country : option string;
  timezone : option string;
  lat : option Q;
  lon : option Q
}.

End Payload.

Module Basis.

(** The chart basis returned by [natal_payload]. *)
Record t (UT : Type) : Type := {
  lat : option Q;
  lon : option Q;
  tz : string;
  jd_ut : Q;
  ut_dt : UT
}.
Arguments lat {UT}.
Arguments lon {UT}.
Arguments tz {UT}.
Arguments jd_ut {UT}.
Arguments ut_dt {UT}.

End Basis.

(** [str.strip()] on ASCII text. *)
Definition is_space (c : Ascii.ascii) : bool :=
  let n := Ascii.nat_of_ascii c in
  ((9 <=? n) && (n <=? 13) || (28 <=? n) && (n <=? 32))%nat.

Fixpoint lstrip (s : string) : string :=
  match s with
  | EmptyString => EmptyString
  | String c rest => if is_space c then lstrip rest else s
  end.

Fixpoint rstrip (s : string) : string :=
  match s with
  | EmptyString => EmptyString
  | String c rest =>
      match rstrip rest with
      | EmptyString => if is_space c then EmptyString else String c EmptyString
      | rest' => String c rest'
      end
  end.

Definition strip (s : string) : string := rstrip (lstrip s).

(** [x or <empty string>] for an optional string. *)
Definition or_empty (x : option string) : string :=
  match x with Some s => s | None => EmptyString end.

(** Truth value of a string: non-empty. *)
Definition nonempty (s : string) : bool := negb (String.eqb s EmptyString).

(** Truth value of [p.get(key)]: present and non-empty. *)
Definition truthy (x : option string) : bool := nonempty (or_empty x).

(** ** Calls to the collaborators *)

(** A computation that may call the geocoder ([geocoder.geocode(q)]) and
    the time conversion ([local_to_ut], which answers with the text of the
    exception it raised or with [(jd_ut, ut_dt)]). *)
Inductive prog (UT A : Type) : Type :=
| Ret (a : A)
| Geocoder_geocode (q : string) (k : option (Q * Q) -> prog UT A)
| Local_to_ut (date time tz : string) (k : string + Q * UT -> prog UT A).
Arguments Ret {UT A}.
Arguments Geocoder_geocode {UT A}.
Arguments Local_to_ut {UT A}.

Fixpoint bind {UT A B : Type} (m : prog UT A) (f : A -> prog UT B)
  : prog UT B :=
  match m with
  | Ret a => f a
  | Geocoder_geocode q k => Geocoder_geocode q (fun r => bind (k r) f)
  | Local_to_ut d t z k => Local_to_ut d t z (fun r => bind (k r) f)
  end.

Inductive call : Type :=
| Called_geocoder (q : string)
| Called_local_to_ut (date time tz : string).

(** Runs a computation against given collaborators; the calls made are
    logged in order. *)
Fixpoint run {UT A : Type}
    (geocoder : string -> option (Q * Q))
    (local_to_ut : string -> string -> string -> string + Q * UT)
    (m : prog UT A) : A * list call :=
  match m with
  | Ret a => (a, [])
  | Geocoder_geocode q k =>
      let (a, log) := run geocoder local_to_ut (k (geocoder q)) in
      (a, Called_geocoder q :: log)
  | Local_to_ut d t z k =>
      let (a, log) := run geocoder local_to_ut (k (local_to_ut d t z)) in
      (a, Called_local_to_ut d t z :: log)
  end.

(** [geocode]: the query is ["city, country"], or the city alone when the
    country is empty; an unresolved place gives [None]. *)
Definition geocode {UT : Type} (city country : string)
  : prog UT (option (Q * Q)) :=
  let q := if nonempty country then (city ++ ", " ++ country)%string else city in
  Geocoder_geocode q (fun loc => Ret loc).

Definition MISSING_FIELDS : string := "date, time, and timezone are required".
Definition GEOCODE_FAILED : string := "Could not geocode city/country".
Definition TIME_FAILED (e : string) : string :=
  ("Time conversion failed: " ++ e)%string.

(** The [try: local_to_ut ... except ...: ... return basis, None] tail of
    [natal_payload]. *)
Definition convert_time {UT : Type} (date time_s tz_name : string)
    (lat lon : option Q) : prog UT (option (Basis.t UT) * option string) :=
  Local_to_ut date time_s tz_name
    (fun r =>
       match r with
       | inl e => Ret (None, Some (TIME_FAILED e))
       | inr (jd_ut, ut_dt) =>
           Ret (Some {| Basis.lat := lat; Basis.lon := lon;
                        Basis.tz := tz_name; Basis.jd_ut := jd_ut;
                        Basis.ut_dt := ut_dt |}, None)
       end).

(** [natal_payload]: the pair [(basis, err)], one of the two being [None];
    [err] stands for the dictionary [{"error": err}]. *)
Definition natal_payload {UT : Type} (p : Payload.t) (require_geo : bool)
  : prog UT (option (Basis.t UT) * option string) :=
  let date := Payload.date p in
  let time_s := Payload.time p in
  let city := strip (or_empty (Payload.city p)) in
  let country := strip (or_empty (Payload.country p)) in
  let tz_name := strip (or_empty (Payload.timezone p)) in
  if negb (truthy date && truthy time_s && nonempty tz_name) then
    Ret (None, Some MISSING_FIELDS)
  else
    let lat := Payload.lat p in
    let lon := Payload.lon p in
    if (match lat, lon with Some _, Some _ => false | _, _ => true end)
       && require_geo
    then
      bind (geocode city country)
        (fun gc =>
           match gc with
           | None => Ret (None, Some GEOCODE_FAILED)
           | Some (lat, lon) =>
               convert_time (or_empty date) (or_empty time_s) tz_name
                 (Some lat) (Some lon)
           end)
    else
      convert_time (or_empty date) (or_empty time_s) tz_name lat lon.

(** A payload with a place and a time but no date. *)
Definition undated_payload : Payload.t :=
  {| Payload.date := None; Payload.time := Some "12:30"%string;
     Payload.city := Some "Oslo"%string; Payload.country := None;
     Payload.timezone := Some "Europe/Oslo"%string;
     Payload.lat := None; Payload.lon := None |}.

(** ** Chart builder *)

Module Cusp.

(** An entry of [houses_out]. *)
Record t : Type := {
  num : nat;
  lon : Q;
  sign : string;
  deg_in_sign : Q
}.

End Cusp.

Module Aspect.

(** An entry of [aspects] in [natal]. *)
Record t : Type := {
  a : string;
  b : string;
  type : string;
  orb : Q
}.

End Aspect.

Module Chart.

(** The body of a successful [/natal] response; the first five fields are
    its ["resolved"] part. *)
Record t : Type := {
  lat : Q;
  lon : Q;
  timezone : string;
  ut : string;
  jd_ut : Q;
  ascendant : Q;
  mc : Q;
  planets : list Planet.t;
  houses : list Cusp.t;
  aspects : list Aspect.t
}.

End Chart.

Module Request.

(** What [natal] reads of the HTTP request: the client address, the
    [X-Astro-Key] header and the JSON body ([None] when it does not
    parse). *)
Record t : Type := {
  remote_addr : option string;
  x_astro_key : option string;
  json : option Payload.t
}.

End Request.

Inductive response : Type :=
| Rate_limited                    (* 429 *)
| Unauthorized                    (* 401 *)
| Bad_request (error : string)    (* 400 *)
| Chart_ok (chart : Chart.t)      (* 200 *)
| Internal_error.                 (* an exception that nothing catches *)

Definition RATE_MAX : nat := 30.
Definition RATE_WINDOW : Q := 60.

(** [while q and now - q[0] > RATE_WINDOW: q.popleft()]. *)
Fixpoint drop_expired (now : Q) (q : list Q) : list Q :=
  match q with
  | [] => []
  | t0 :: rest =>
      if Py.ltb RATE_WINDOW (now - t0) then drop_expired now rest else q
  end.

(** [check_rate]; [_rate] is passed in and returned, [now] is
    [time.time()]. *)
Definition check_rate (rate : string -> list Q) (now : Q) (ip : string)
  : (string -> list Q) * bool :=
  let q := drop_expired now (rate ip) in
  if (RATE_MAX <=? List.length q)%nat
  then (fun k => if String.eqb k ip then q else rate k, false)
  else (fun k => if String.eqb k ip then q ++ [now] else rate k, true).

(** The pairs [i < j] of the two nested loops over [planets], in order. *)
Fixpoint natal_aspects (planets : list Planet.t) : list Aspect.t :=
  match planets with
  | [] => []
  | pi :: rest =>
      flat_map
        (fun pj =>
           match aspect_between (Planet.lon pi) (Planet.lon pj) NATAL_ORB with
           | Some (typ, orb) =>
               [{| Aspect.a := Planet.name pi; Aspect.b := Planet.name pj;
                   Aspect.type := typ; Aspect.orb := orb |}]
           | None => []
           end)
        rest
      ++ natal_aspects rest
  end.

(** [for pl in planets: pl["house"] = house_for(pl["lon"], cusps)]. *)
Fixpoint assign_houses (cusps : list Q) (planets : list Planet.t)
  : option (list Planet.t) :=
  match planets with
  | [] => Some []
  | pl :: rest =>
      match house_for (Planet.lon pl) cusps with
      | None => None
      | Some h =>
          match assign_houses cusps rest with
          | None => None
          | Some rest' => Some (Planet.set_house pl h :: rest')
          end
      end
  end.

(** [for i, cusp in enumerate(cusps, start=1)]. *)
Fixpoint houses_out (i : nat) (cusps : list Q) : list Cusp.t :=
  match cusps with
  | [] => []
  | cusp :: rest =>
      let (sname, deg) := sign_name cusp in
      {| Cusp.num := i; Cusp.lon := Py.round (norm360 cusp) 6;
         Cusp.sign := sname; Cusp.deg_in_sign := Py.round deg 2 |}
      :: houses_out (S i) rest
  end.

Section Service.

(** The timestamp type of the time conversion and its
    [strftime("%Y-%m-%d %H:%M")]. *)
Variable UT : Type.
Variable strftime : UT -> string.

(** The ephemeris: [swe.calc_ut(jd_ut, pid, iflag)[0:4]] and
    [swe.houses(jd_ut, lat, lon, b'P')]. *)
Variable calc_ut : Q -> body -> Q * Q * Q * Q.
Variable houses : Q -> Q -> Q -> list Q * list Q.

(** The geocoder and the time conversion. *)
Variable geocoder : string -> option (Q * Q).
Variable local_to_ut : string -> string -> string -> string + Q * UT.

(** The configured key, [os.getenv("ASTRO_SERVICE_KEY")]. *)
Variable ASTRO_KEY : option string.

Definition houses_placidus (jd_ut lat lon : Q) : option (list Q * Q * Q) :=
  let (cusps, ascmc) := houses jd_ut lat lon in
  match nth_error ascmc 0, nth_error ascmc 1 with
  | Some asc, Some mc => Some (firstn 12 cusps, asc, mc)
  | _, _ => None
  end.

Definition planet_positions (jd_ut orb : Q) : list Planet.t :=
  map
    (fun entry : string * body =>
       let (name, pid) := entry in
       let '(lon, latp, dist, speed) := calc_ut jd_ut pid in
       let (sname, deg) := sign_name lon in
       {| Planet.name := name;
          Planet.lon := Py.round (norm360 lon) 6;
          Planet.sign := sname;
          Planet.deg_in_sign := Py.round deg 2;
          Planet.speed := speed;
          Planet.house := None |})
    PLANETS.

(** The part of [natal] after the basis is known; [None] is an exception
    that nothing catches. *)
Definition natal_chart (basis : Basis.t UT) : option Chart.t :=
  match Basis.lat basis, Basis.lon basis with
  | Some lat, Some lon =>
      let jd_ut := Basis.jd_ut basis in
      match houses_placidus jd_ut lat lon with
      | None => None
      | Some (cusps, ascv, mcv) =>
          match assign_houses cusps (planet_positions jd_ut NATAL_ORB) with
          | None => None
          | Some planets =>
              Some {| Chart.lat := lat; Chart.lon := lon;
                      Chart.timezone := Basis.tz basis;
                      Chart.ut := strftime (Basis.ut_dt basis);
                      Chart.jd_ut := jd_ut;
                      Chart.ascendant := Py.round (norm360 ascv) 6;
                      Chart.mc := Py.round (norm360 mcv) 6;
                      Chart.planets := planets;
                      Chart.houses := houses_out 1 cusps;
                      Chart.aspects := natal_aspects planets |}
          end
      end
  | _, _ => None
  end.

(** [require_key]. *)
Definition require_key (req : Request.t) : bool :=
  if negb (truthy ASTRO_KEY) then true
  else
    match Request.x_astro_key req with
    | Some k => String.eqb k (or_empty ASTRO_KEY)
    | None => false
    end.

(** [natal]: the rate store before and after, and the response. *)
Definition natal (rate : string -> list Q) (now : Q) (req : Request.t)
  : (string -> list Q) * response :=
  let ip :=
    if truthy (Request.remote_addr req)
    then or_empty (Request.remote_addr req) else "anon"%string in
  let (rate', admitted) := check_rate rate now ip in
  if negb admitted then (rate', Rate_limited)
  else if negb (require_key req) then (rate', Unauthorized)
  else
    match Request.json req with
    | None => (rate', Bad_request "Invalid JSON")
    | Some p =>
        match fst (run geocoder local_to_ut (natal_payload p true)) with
        | (_, Some err) => (rate', Bad_request err)
        | (Some basis, None) =>
            match natal_chart basis with
            | Some chart => (rate', Chart_ok chart)
            | None => (rate', Internal_error)
            end
        | (None, None) => (rate', Internal_error)
        end
    end.

(** What [natal] answers once the rate limit has admitted the request. *)
Definition admitted_response (req : Request.t) : response :=
  if negb (require_key req) then Unauthorized
  else
    match Request.json req with
    | None => Bad_request "Invalid JSON"
    | Some p =>
        match fst (run geocoder local_to_ut (natal_payload p true)) with
        | (_, Some err) => Bad_request err
        | (Some basis, None) =>
            match natal_chart basis with
            | Some chart => Chart_ok chart
            | None => Internal_error
            end
        | (None, None) => Internal_error
        end
    end.

End Service.

(** ** A fixture: stub collaborators and a complete request *)

Module Fixture.

Definition calc_ut (jd_ut : Q) (pid : body) : Q * Q * Q * Q :=
  let lon :=
    match pid with
    | SUN => 10 | MOON => 100.5 | MERCURY => 355 | VENUS => 42
    | MARS => 190 | JUPITER => 250.25 | SATURN => 301 | URANUS => 15
    | NEPTUNE => 339 | PLUTO => 221
    end in
  (lon, 0, 1, 1 # 2).

Definition houses (jd_ut lat lon : Q) : list Q * list Q :=
  (shifted_cusps, [10; 280]).

Definition geocoder (q : string) : option (Q * Q) := None.

Definition local_to_ut (date time tz : string) : string + Q * string :=
  inr (2451545, date).

Definition payload : Payload.t :=
  {| Payload.date := Some "2000-01-01"%string;
     Payload.time := Some "12:00"%string;
     Payload.city := None; Payload.country := None;
     Payload.timezone := Some "UTC"%string;
     Payload.lat := Some 59.9; Payload.lon := Some 10.7 |}.

Definition request : Request.t :=
  {| Request.remote_addr := Some "10.0.0.1"%string;
     Request.x_astro_key := None;
     Request.json := Some payload |}.

Definition no_requests : string -> list Q := fun _ => [].

End Fixture.

(** ** The [/transits] endpoint *)

Module TransitPayload.

(** The JSON object of a [/transits] request: the natal keys, the keys of
    the transit moment and the [now] flag ([p.get("now", False)]). *)
Record t : Type := {
  natal : Payload.t;
  t_date : option string;
  t_time : option string;
  t_timezone : option string;
  now : bool
}.

End TransitPayload.

Module TransitRequest.

Record t : Type := {
  remote_addr : option string;
  x_astro_key : option string;
  json : option TransitPayload.t
}.

(** The same request as [require_key] sees it. *)
Definition headers (req : t) : Request.t :=
  {| Request.remote_addr := remote_addr req;
     Request.x_astro_key := x_astro_key req;
     Request.json := option_map TransitPayload.natal (json req) |}.

End TransitRequest.

Module Report.

(** The body of a successful [/transits] response; the first three fields
    are its ["resolved"] part. *)
Record t : Type := {
  timezone : string;
  ut : string;
  jd_ut : Q;
  transiting_planets : list Planet.t;
  natal_planets : list Planet.t;
  hits : list Hit.t
}.

End Report.

Inductive transit_response : Type :=
| Transit_rate_limited                    (* 429 *)
| Transit_unauthorized                    (* 401 *)
| Transit_bad_request (error : string)    (* 400 *)
| Transit_ok (report : Report.t)          (* 200 *)
| Transit_internal_error.                 (* an exception that nothing catches *)

Definition TRANSIT_TIME_REQUIRED : string :=
  "t_date/time & t_timezone (or now:true) required".

(** How the choice of the transit moment ends. *)
Inductive moment : Type :=
| Moment (date time_s tz_name : string)
| Moment_missing      (* the [if not (date and time_s and tz_name)] branch *)
| Moment_raised.      (* the timezone lookup raised *)

(** [x or y] for two optional strings. *)
Definition or_else (x y : option string) : option string :=
  if truthy x then x else y.

Section Transits.

Variable UT : Type.
Variable strftime : UT -> string.
Variable calc_ut : Q -> body -> Q * Q * Q * Q.
Variable geocoder : string -> option (Q * Q).
Variable local_to_ut : string -> string -> string -> string + Q * UT.
Variable ASTRO_KEY : option string.

(** [datetime.datetime.now(pytz.timezone(tz_name))] formatted as the pair
    of ["%Y-%m-%d"] and ["%H:%M"]; [None] when the timezone lookup raises. *)
Variable now_local : string -> option (string * string).

(** The transit moment: from the clock when [now] is set, else from the
    [t_] keys with the natal keys as defaults. *)
Definition transit_moment (p : TransitPayload.t) (tz_name : string)
  : moment :=
  if TransitPayload.now p then
    match now_local tz_name with
    | Some (date, time_s) => Moment date time_s tz_name
    | None => Moment_raised
    end
  else
    let date := or_else (TransitPayload.t_date p)
                  (Payload.date (TransitPayload.natal p)) in
    let time_s := or_else (TransitPayload.t_time p)
                    (Payload.time (TransitPayload.natal p)) in
    let tz_name :=
      or_empty (or_else (TransitPayload.t_timezone p) (Some tz_name)) in
    if negb (truthy date && truthy time_s && nonempty tz_name)
    then Moment_missing
    else Moment (or_empty date) (or_empty time_s) tz_name.

(** The part of [transits] from [jd_ut, ut_dt = local_to_ut(...)] on; an
    exception of [local_to_ut] is not caught here. *)
Definition transit_report (p : TransitPayload.t)
    (date time_s tz_name : string) : transit_response :=
  match local_to_ut date time_s tz_name with
  | inl _ => Transit_internal_error
  | inr (jd_ut, ut_dt) =>
      let natal := TransitPayload.natal p in
      match local_to_ut (or_empty (Payload.date natal))
              (or_empty (Payload.time natal))
              (or_empty (Payload.timezone natal)) with
      | inl _ => Transit_internal_error
      | inr (n_jd, _) =>
          let natal_planets := planet_positions calc_ut n_jd NATAL_ORB in
          let t_planets := planet_positions calc_ut jd_ut TRANSIT_ORB in
          Transit_ok
            {| Report.timezone := tz_name;
               Report.ut := strftime ut_dt;
               Report.jd_ut := jd_ut;
               Report.transiting_planets := t_planets;
               Report.natal_planets := natal_planets;
               Report.hits := transit_hits t_planets natal_planets |}
      end
  end.

(** [transits]: the rate store before and after, and the response. *)
Definition transits (rate : string -> list Q) (now : Q)
    (req : TransitRequest.t) : (string -> list Q) * transit_response :=
  let ip :=
    if truthy (TransitRequest.remote_addr req)
    then or_empty (TransitRequest.remote_addr req) else "anon"%string in
  let (rate', admitted) := check_rate rate now ip in
  if negb admitted then (rate', Transit_rate_limited)
  else if negb (require_key ASTRO_KEY (TransitRequest.headers req))
  then (rate', Transit_unauthorized)
  else
    match TransitRequest.json req with
    | None => (rate', Transit_bad_request "Invalid JSON")
    | Some p =>
        match fst (run geocoder local_to_ut
                     (natal_payload (TransitPayload.natal p) true)) with
        | (_, Some err) => (rate', Transit_bad_request err)
        | (None, None) => (rate', Transit_internal_error)
        | (Some basis, None) =>
            match transit_moment p (Basis.tz basis) with
            | Moment_raised => (rate', Transit_internal_error)
            | Moment_missing =>
                (rate', Transit_bad_request TRANSIT_TIME_REQUIRED)
            | Moment date time_s tz_name =>
                (rate', transit_report p date time_s tz_name)
            end
        end
    end.

End Transits.

(** A rate store in which every client has three recorded requests. *)
Definition recent_requests : string -> list Q := fun _ => [0; 10; 61].

(** A complete payload with a latitude but no longitude. *)
Definition half_located_payload : Payload.t :=
  {| Payload.date := Some "2000-01-01"%string;
     Payload.time := Some "12:00"%string;
     Payload.city := Some " Oslo "%string;
     Payload.country := Some "Norway"%string;
     Payload.timezone := Some " Europe/Oslo"%string;
     Payload.lat := Some 1; Payload.lon := None |}.

(** A basis for the fixture: the moment and place of [Fixture.payload]. *)
Definition fixture_basis : Basis.t string :=
  {| Basis.lat := Some 59.9; Basis.lon := Some 10.7;
     Basis.tz := "UTC"%string;
     Basis.jd_ut := 2451545; Basis.ut_dt := "2000-01-01"%string |}.

(** A request with a wrong key. *)
Definition intruder_request : Request.t :=
  {| Request.remote_addr := None;
     Request.x_astro_key := Some "guess"%string;
     Request.json := Some Fixture.payload |}.

(** A [/transits] request for the fixture's natal moment, with a transit
    date of its own. *)
Definition transit_request : TransitRequest.t :=
  {| TransitRequest.remote_addr := Some "10.0.0.1"%string;
     TransitRequest.x_astro_key := None;
     TransitRequest.json :=
       Some {| TransitPayload.natal := Fixture.payload;
               TransitPayload.t_date := Some "2024-03-20"%string;
               TransitPayload.t_time := None;
               TransitPayload.t_timezone := None;
               TransitPayload.now := false |} |}.

(** A clock for the fixture. *)
Definition fixture_clock (tz_name : string) : option (string * string) :=
  Some ("2024-03-20"%string, "09:15"%string).

(** A [/transits] request whose natal date is missing. *)
Definition undated_transit_request : TransitRequest.t :=
  {| TransitRequest.remote_addr := None;
     TransitRequest.x_astro_key := None;
     TransitRequest.json :=
       Some {| TransitPayload.natal := undated_payload;
               TransitPayload.t_date := Some "2024-03-20"%string;
               TransitPayload.t_time := Some "09:15"%string;
               TransitPayload.t_timezone := Some "UTC"%string;
               TransitPayload.now := false |} |}.

(** The payload with both coordinates replaced. *)
Definition with_coordinates (p : Payload.t) (lat lon : Q) : Payload.t :=
  {| Payload.date := Payload.date p; Payload.time := Payload.time p;
     Payload.city := Payload.city p; Payload.country := Payload.country p;
     Payload.timezone := Payload.timezone p;
     Payload.lat := Some lat; Payload.lon := Some lon |}.

Definition transit_with_coordinates (p : TransitPayload.t) (lat lon : Q)
  : TransitPayload.t :=
  {| TransitPayload.natal := with_coordinates (TransitPayload.natal p) lat lon;
     TransitPayload.t_date := TransitPayload.t_date p;
     TransitPayload.t_time := TransitPayload.t_time p;
     TransitPayload.t_timezone := TransitPayload.t_timezone p;
     TransitPayload.now := TransitPayload.now p |}.

(** An ephemeris that answers with fourteen cusps and three angles. *)
Definition long_houses (jd_ut lat lon : Q) : list Q * list Q :=
  (equal_cusps ++ [5; 6], [10; 280; 33]).

(** A [/transits] request that names a place but gives no coordinates. *)
Definition placed_transit_request : TransitRequest.t :=
  {| TransitRequest.remote_addr := None;
     TransitRequest.x_astro_key := None;
     TransitRequest.json :=
       Some {| TransitPayload.natal :=
                 {| Payload.date := Some "2000-01-01"%string;
                    Payload.time := Some "12:00"%string;
                    Payload.city := Some "Atlantis"%string;
                    Payload.country := None;
                    Payload.timezone := Some "UTC"%string;
                    Payload.lat := None; Payload.lon := None |};
               TransitPayload.t_date := None;
               TransitPayload.t_time := None;
               TransitPayload.t_timezone := None;
               TransitPayload.now := true |} |}.

(** * Properties *)

(** ** Tests and floors *)

Lemma leb_true (x y : Q) : Py.leb x y = true <-> x <= y.
Proof. apply Qle_bool_iff. Qed.

Lemma ltb_true (x y : Q) : Py.ltb x y = true <-> x < y.
Proof.
  unfold Py.ltb. rewrite negb_true_iff, <- not_true_iff_false, Qle_bool_iff.
  split; [apply Qnot_le_lt | apply Qlt_not_le].
Qed.

Lemma leb_false (x y : Q) : Py.leb x y = false <-> y < x.
Proof.
  rewrite <- not_true_iff_false, leb_true.
  split; [apply Qnot_le_lt | apply Qlt_not_le].
Qed.

Lemma ltb_false (x y : Q) : Py.ltb x y = false <-> y <= x.
Proof.
  rewrite <- not_true_iff_false, ltb_true.
  split; [apply Qnot_lt_le | apply Qle_not_lt].
Qed.

(** Case analysis on a test, leaving the order fact in the context. *)
Ltac case_test :=
  match goal with
  | |- context [Py.leb ?x ?y] =>
      let H := fresh "Hle" in
      destruct (Py.leb x y) eqn:H;
      [apply leb_true in H | apply leb_false in H]
  | |- context [Py.ltb ?x ?y] =>
      let H := fresh "Hlt" in
      destruct (Py.ltb x y) eqn:H;
      [apply ltb_true in H | apply ltb_false in H]
  end.

Lemma inject_Z_lt_succ (j k : Z) : inject_Z j < inject_Z k + 1 -> (j <= k)%Z.
Proof.
  intros H.
  assert (H1 : inject_Z j < inject_Z (k + 1)) by (rewrite inject_Z_plus; exact H).
  rewrite <- Zlt_Qlt in H1. lia.
Qed.

(** The floor is the only integer [k] with [k <= x < k + 1]. *)
Lemma Qfloor_unique (x : Q) (k : Z) :
  inject_Z k <= x -> x < inject_Z k + 1 -> Qfloor x = k.
Proof.
  intros Hlo Hhi.
  pose proof (Qfloor_le x) as Hf.
  pose proof (Qlt_floor x) as Hg. rewrite inject_Z_plus in Hg.
  change (inject_Z 1) with 1 in Hg.
  assert (Qfloor x <= k)%Z by (apply inject_Z_lt_succ; lra).
  assert (k <= Qfloor x)%Z by (apply inject_Z_lt_succ; lra).
  lia.
Qed.

Lemma Qfloor_bounds (x : Q) : inject_Z (Qfloor x) <= x < inject_Z (Qfloor x) + 1.
Proof.
  split; [apply Qfloor_le|].
  pose proof (Qlt_floor x) as Hg. rewrite inject_Z_plus in Hg. exact Hg.
Qed.


(** ** [%] on rationals *)

Section Fmod.
Variable m : Q.
Hypothesis m_pos : 0 < m.

Lemma fmod_range (x : Q) : 0 <= Py.fmod x m < m.
Proof.
  unfold Py.fmod. destruct (Qfloor_bounds (x / m)) as [Hlo Hhi].
  assert (Hx : x == m * (x / m)) by (field; lra).
  split.
  - assert (m * inject_Z (Qfloor (x / m)) <= m * (x / m)).
    { apply Qmult_le_l; assumption. }
    lra.
  - assert (m * (x / m) < m * (inject_Z (Qfloor (x / m)) + 1)).
    { apply Qmult_lt_l; assumption. }
    lra.
Qed.

(** [x % m] is the only [r] in [[0, m)] that differs from [x] by an
    integer multiple of [m]. *)
Lemma fmod_unique (x r : Q) (k : Z) :
  x == r + m * inject_Z k -> 0 <= r -> r < m -> Py.fmod x m == r.
Proof.
  intros Hx Hlo Hhi. unfold Py.fmod.
  assert (Hk : Qfloor (x / m) = k).
  { apply Qfloor_unique.
    - apply Qle_shift_div_l; [assumption|]. lra.
    - apply Qlt_shift_div_r; [assumption|]. lra. }
  rewrite Hk. lra.
Qed.

Lemma fmod_small (x : Q) : 0 <= x -> x < m -> Py.fmod x m == x.
Proof.
  intros. apply (fmod_unique x x 0); [|assumption..].
  change (inject_Z 0) with 0. lra.
Qed.

Lemma fmod_shift (x : Q) (k : Z) :
  Py.fmod (x + m * inject_Z k) m == Py.fmod x m.
Proof.
  destruct (fmod_range x).
  apply (fmod_unique _ _ (Qfloor (x / m) + k)); [|assumption..].
  rewrite inject_Z_plus. unfold Py.fmod. lra.
Qed.
End Fmod.

#[global] Instance fmod_Proper : Proper (Qeq ==> Qeq ==> Qeq) Py.fmod.
Proof.
  intros x y Hxy m n Hmn. unfold Py.fmod.
  assert (H : Qfloor (x / m) = Qfloor (y / n)).
  { apply Qfloor_comp. rewrite Hxy, Hmn. reflexivity. }
  rewrite H, Hxy, Hmn. reflexivity.
Qed.

(** ** Angle utilities *)

(** The [d < 0] branch of [norm360] is never taken: [%] already gives a
    value in [[0, 360)]. *)
Lemma norm360_fmod (d : Q) : norm360 d = Py.fmod d 360.
Proof.
  unfold norm360. pose proof (fmod_range 360 ltac:(lra) d).
  case_test; [lra | reflexivity].
Qed.

Lemma norm360_range (d : Q) : 0 <= norm360 d < 360.
Proof. rewrite norm360_fmod. apply fmod_range. lra. Qed.


#[global] Instance norm360_Proper : Proper (Qeq ==> Qeq) norm360.
Proof. intros x y Hxy. rewrite !norm360_fmod, Hxy. reflexivity. Qed.

(** [norm360 d] is [d] moved by a whole number of turns. *)
Lemma norm360_turns (d : Q) :
  norm360 d == d + 360 * inject_Z (- Qfloor (d / 360)).
Proof. rewrite norm360_fmod. unfold Py.fmod. rewrite inject_Z_opp. lra. Qed.


(** ** Sign assignment *)

Lemma sign_index_range (lon : Q) : (0 <= sign_index lon < 12)%Z.
Proof. unfold sign_index. apply Z.mod_pos_bound. lia. Qed.

Lemma sign_name_in_SIGNS (lon : Q) : In (fst (sign_name lon)) SIGNS.
Proof.
  unfold sign_name. cbn [fst]. apply nth_In.
  pose proof (sign_index_range lon). change (List.length SIGNS) with 12%nat. lia.
Qed.





(** ** Rounding *)

Lemma round_half_even_floor (x : Q) :
  (Qfloor x <= Py.round_half_even x <= Qfloor x + 1)%Z.
Proof.
  unfold Py.round_half_even.
  destruct (Qcompare _ _); [destruct (Z.even _)|..]; lia.
Qed.

Lemma round_half_even_nonneg (x : Q) : 0 <= x -> (0 <= Py.round_half_even x)%Z.
Proof.
  intros Hx. pose proof (round_half_even_floor x).
  assert (0 <= Qfloor x)%Z; [|lia].
  change 0%Z with (Qfloor 0). apply Qfloor_resp_le. exact Hx.
Qed.

(** Rounding never crosses an integer that bounds the argument. *)
Lemma round_half_even_le (x : Q) (k : Z) :
  x <= inject_Z k -> (Py.round_half_even x <= k)%Z.
Proof.
  intros Hx. pose proof (round_half_even_floor x) as Hr.
  assert (Hf : (Qfloor x <= k)%Z).
  { rewrite <- (Qfloor_Z k). apply Qfloor_resp_le. exact Hx. }
  destruct (Z.eq_dec (Qfloor x) k) as [Heq|]; [|lia].
  unfold Py.round_half_even.
  pose proof (Qfloor_le x) as Hlo. rewrite Heq in *.
  assert (Hc : Qcompare (x - inject_Z k) (1 # 2) = Lt).
  { rewrite <- Qlt_alt. lra. }
  rewrite Hc. lia.
Qed.

Lemma round_value (x : Q) (n : nat) :
  Py.round x n ==
  inject_Z (Py.round_half_even (x * inject_Z (10 ^ Z.of_nat n)))
  / inject_Z (10 ^ Z.of_nat n).
Proof. unfold Py.round. apply Qred_correct. Qed.

Lemma pow10_pos (n : nat) : 0 < inject_Z (10 ^ Z.of_nat n).
Proof.
  change 0 with (inject_Z 0). rewrite <- Zlt_Qlt.
  apply Z.pow_pos_nonneg; lia.
Qed.

Lemma round_nonneg (x : Q) (n : nat) : 0 <= x -> 0 <= Py.round x n.
Proof.
  intros Hx. rewrite round_value. pose proof (pow10_pos n) as Hs.
  apply Qle_shift_div_l; [exact Hs|]. rewrite Qmult_0_l.
  change 0 with (inject_Z 0). rewrite <- Zle_Qle.
  apply round_half_even_nonneg. apply Qmult_le_0_compat; lra.
Qed.

(** A bound that is itself a multiple of [10^-n] survives rounding. *)
Lemma round_le_multiple (x : Q) (n : nat) (k : Z) :
  x <= inject_Z k / inject_Z (10 ^ Z.of_nat n) ->
  Py.round x n <= inject_Z k / inject_Z (10 ^ Z.of_nat n).
Proof.
  intros Hx. rewrite round_value. pose proof (pow10_pos n) as Hs.
  set (s := inject_Z (10 ^ Z.of_nat n)) in *.
  apply Qle_shift_div_l; [exact Hs|].
  assert (He : inject_Z (Py.round_half_even (x * s)) / s * s
               == inject_Z (Py.round_half_even (x * s))) by (field; lra).
  rewrite He. rewrite <- Zle_Qle. apply round_half_even_le.
  assert (Hk : inject_Z k == inject_Z k / s * s) by (field; lra).
  rewrite Hk. apply Qmult_le_compat_r; lra.
Qed.

(** ** Aspect matcher *)

Lemma Qabs_minus_swap (a b : Q) : Qabs (a - b) = Qabs (b - a).
Proof.
  destruct a as [an ad], b as [bn bd].
  unfold Qabs, Qminus, Qplus, Qopp. cbn [Qnum Qden].
  rewrite (Pos.mul_comm bd ad). f_equal. lia.
Qed.

(** C6.  The aspect matcher is symmetric in its two longitudes: for all
    [a], [b] and every orb, [aspect_between a b orb] and
    [aspect_between b a orb] are the same result. *)
Theorem aspect_between_symmetric (a b orb : Q) :
  aspect_between a b orb = aspect_between b a orb.
Proof.
  unfold aspect_between, separation. rewrite (Qabs_minus_swap a b). reflexivity.
Qed.


(** Splits a membership in a literal list into its cases. *)
Ltac in_cases H :=
  cbn [In AspectSpec.ANGLES AspectSpec.KINDS ASPECTS] in H;
  repeat (destruct H as [H|H]; [try (injection H as <- <-); try subst|]);
  [..|contradiction].




Lemma aspect_scan_some (d orb : Q) (aspects : list (Q * string)) name dev :
  aspect_scan d orb aspects = Some (name, dev) ->
  exists ang, In (ang, name) aspects
              /\ Qabs (d - ang) <= orb
              /\ dev = Py.round (Qabs (d - ang)) 2.
Proof.
  induction aspects as [|[ang nm] rest IH]; cbn [aspect_scan]; [discriminate|].
  case_test.
  - intros [= <- <-]. exists ang. cbn [In]. auto.
  - intros Hrest. destruct (IH Hrest) as (ang' & Hin & Hle' & Hdev).
    exists ang'. cbn [In]. auto.
Qed.

(** C10.  Whenever [aspect_between a b orb] returns a match, the kind is one
    of the five names conjunction, sextile, square, trine, opposition; the
    reported deviation is non-negative; it is the rounding to two decimals
    of a deviation that lies in [[0, orb]]; and when [orb] is a multiple of
    0.01 the reported (rounded) deviation is itself at most [orb]. *)
Theorem aspect_between_match_bounds (a b orb : Q) (name : string) (dev : Q) :
  aspect_between a b orb = Some (name, dev) ->
  In name ["conjunction"; "sextile"; "square"; "trine"; "opposition"]%string
  /\ 0 <= dev
  /\ (exists diff, 0 <= diff /\ diff <= orb /\ dev = Py.round diff 2)
  /\ (forall k : Z, orb == inject_Z k / 100 -> dev <= orb).
Proof.
  unfold aspect_between. intros Hm.
  destruct (aspect_scan_some _ _ _ _ _ Hm) as (ang & Hin & Hle & ->).
  pose proof (Qabs_nonneg (separation a b - ang)) as Hnn.
  split; [|split; [|split]].
  - change (In (snd (ang, name)) (map snd ASPECTS)). apply in_map. exact Hin.
  - apply round_nonneg. exact Hnn.
  - exists (Qabs (separation a b - ang)). auto.
  - intros k Hk. rewrite Hk.
    apply (round_le_multiple _ 2 k). rewrite <- Hk. exact Hle.
Qed.

Lemma aspect_between_match_bounds_witness :
  aspect_between 0 90.5 3.0 = Some ("square"%string, 1 # 2)
  /\ (1 # 2) <= 3.0.
Proof.
  assert (H : aspect_between 0 90.5 3.0 = Some ("square"%string, 1 # 2))
    by (vm_compute; reflexivity).
  split; [exact H|].
  destruct (aspect_between_match_bounds 0 90.5 3.0 _ _ H) as (_ & _ & _ & Hk).
  apply (Hk 300%Z). vm_compute. reflexivity.
Defined.

(** ** Arcs *)

Section Arcs.
Import HouseSpec.

Lemma arc_range (a x : Q) : 0 <= arc a x < 360.
Proof. apply fmod_range. lra. Qed.

#[global] Instance arc_Proper : Proper (Qeq ==> Qeq ==> Qeq) arc.
Proof. intros a a' Ha x x' Hx. unfold arc. rewrite Ha, Hx. reflexivity. Qed.

Lemma arc_self (a : Q) : arc a a == 0.
Proof.
  unfold arc. apply (fmod_unique 360 ltac:(lra) _ _ 0); [|lra..].
  change (inject_Z 0) with 0. lra.
Qed.

(** Between two angles of [[0, 360)] the arc is a difference, plus one
    turn when the target lies below the origin. *)
Lemma arc_above (a x : Q) :
  0 <= a -> x < 360 -> a <= x -> arc a x == x - a.
Proof. intros. apply fmod_small; lra. Qed.

Lemma arc_below (a x : Q) :
  a < 360 -> 0 <= x -> x < a -> arc a x == x - a + 360.
Proof.
  intros. apply (fmod_unique 360 ltac:(lra) _ _ (-1)); [|lra..].
  change (inject_Z (-1)) with (-1). lra.
Qed.

Lemma arc_norm360 (a x : Q) : arc (norm360 a) (norm360 x) == arc a x.
Proof.
  unfold arc. rewrite (norm360_turns a), (norm360_turns x).
  rewrite <- (fmod_shift 360 ltac:(lra) (x - a)
                (- Qfloor (x / 360) - - Qfloor (a / 360))).
  apply fmod_Proper; [|reflexivity].
  unfold Zminus. rewrite inject_Z_plus, !inject_Z_opp. lra.
Qed.

(** Changing the origin of an arc. *)
Lemma arc_rebase (c a x : Q) : arc a x == Py.fmod (arc c x - arc c a) 360.
Proof.
  unfold arc at 2 3. unfold Py.fmod at 2 3.
  rewrite <- (fmod_shift 360 ltac:(lra) _
                (Qfloor ((x - c) / 360) - Qfloor ((a - c) / 360))).
  apply fmod_Proper; [|reflexivity].
  unfold Zminus. rewrite inject_Z_plus, !inject_Z_opp. lra.
Qed.

(** With offsets measured from a common origin [c], the half-open arc
    from [a] to [b] is the interval between their offsets. *)
Lemma arc_between_offsets (c a b x : Q) :
  arc c a < arc c b ->
  (arc a x < arc a b <-> arc c a <= arc c x /\ arc c x < arc c b).
Proof.
  intros Hab. rewrite (arc_rebase c a x), (arc_rebase c a b).
  pose proof (arc_range c a). pose proof (arc_range c b).
  pose proof (arc_range c x).
  set (oa := arc c a) in *. set (ob := arc c b) in *. set (ox := arc c x) in *.
  assert (Hb : Py.fmod (ob - oa) 360 == ob - oa) by (apply fmod_small; lra).
  rewrite Hb.
  destruct (Qlt_le_dec ox oa).
  - assert (Hx : Py.fmod (ox - oa) 360 == ox - oa + 360).
    { apply (fmod_unique 360 ltac:(lra) _ _ (-1)); [|lra..].
      change (inject_Z (-1)) with (-1). lra. }
    rewrite Hx. lra.
  - assert (Hx : Py.fmod (ox - oa) 360 == ox - oa) by (apply fmod_small; lra).
    rewrite Hx. lra.
Qed.

(** The last house ends where the first one starts. *)
Lemma arc_to_origin (c a x : Q) :
  0 < arc c a -> (arc a x < arc a c <-> arc c a <= arc c x).
Proof.
  intros Ha. rewrite (arc_rebase c a x), (arc_rebase c a c).
  pose proof (arc_range c a). pose proof (arc_range c x).
  pose proof (arc_self c) as Hc.
  set (oa := arc c a) in *. set (ox := arc c x) in *.
  assert (Hb : Py.fmod (arc c c - oa) 360 == 360 - oa).
  { rewrite Hc. apply (fmod_unique 360 ltac:(lra) _ _ (-1)); [|lra..].
    change (inject_Z (-1)) with (-1). lra. }
  rewrite Hb.
  destruct (Qlt_le_dec ox oa).
  - assert (Hx : Py.fmod (ox - oa) 360 == ox - oa + 360).
    { apply (fmod_unique 360 ltac:(lra) _ _ (-1)); [|lra..].
      change (inject_Z (-1)) with (-1). lra. }
    rewrite Hx. lra.
  - assert (Hx : Py.fmod (ox - oa) 360 == ox - oa) by (apply fmod_small; lra).
    rewrite Hx. lra.
Qed.
End Arcs.

(** ** The membership test *)

Section HouseTest.
Import HouseSpec.
Variables L a b : Q.
Hypothesis L_range : 0 <= L < 360.
Hypothesis a_range : 0 <= a < 360.
Hypothesis b_range : 0 <= b < 360.

Lemma house_test_true_iff (hi : Q) :
  house_test L a hi = true <->
  (a <= L /\ L < hi) \/ (hi < a /\ (a <= L \/ L < Py.fmod hi 360)).
Proof.
  unfold house_test.
  rewrite orb_true_iff, !andb_true_iff, orb_true_iff.
  rewrite !leb_true, !ltb_true. reflexivity.
Qed.

(** Between two normalised cusps the test is the half-open arc from [a]
    to [b]. *)
Lemma house_test_arc : house_test L a b = true <-> arc a L < arc a b.
Proof.
  rewrite house_test_true_iff.
  assert (Hb : Py.fmod b 360 == b) by (apply fmod_small; lra).
  rewrite Hb.
  destruct (Qlt_le_dec L a), (Qlt_le_dec b a).
  - rewrite (arc_below a L), (arc_below a b) by lra. lra.
  - rewrite (arc_below a L), (arc_above a b) by lra. lra.
  - rewrite (arc_above a L), (arc_below a b) by lra. lra.
  - rewrite (arc_above a L), (arc_above a b) by lra. lra.
Qed.

(** Against the sentinel [c[0] + 360] the test only asks [a <= L]. *)
Lemma house_test_sentinel : house_test L a (b + 360) = true <-> a <= L.
Proof. rewrite house_test_true_iff. lra. Qed.
End HouseTest.

(** ** The loop *)

Lemma house_loop_seq (L : Q) (c2 : list Q) (n s : nat) :
  match house_loop L c2 (seq s n) with
  | Returned h =>
      exists i, h = (i + 1)%nat /\ (s <= i < s + n)%nat
                /\ house_test_at L c2 i = Some true
                /\ forall j, (s <= j < i)%nat ->
                             house_test_at L c2 j = Some false
  | Fell_through =>
      forall j, (s <= j < s + n)%nat -> house_test_at L c2 j = Some false
  | Index_error =>
      exists j, (s <= j < s + n)%nat /\ house_test_at L c2 j = None
  end.
Proof.
  revert s. induction n as [|n IH]; intros s; cbn [seq house_loop].
  - intros j Hj. lia.
  - destruct (house_test_at L c2 s) as [[|]|] eqn:Hs.
    + exists s. repeat split; try lia. exact Hs.
    + specialize (IH (S s)).
      destruct (house_loop L c2 (seq (S s) n)) as [h| |].
      * destruct IH as (i & -> & Hi & Ht & Hpre). exists i.
        repeat split; try lia; [exact Ht|].
        intros j Hj. destruct (Nat.eq_dec j s) as [->|]; [exact Hs|].
        apply Hpre. lia.
      * intros j Hj. destruct (Nat.eq_dec j s) as [->|]; [exact Hs|].
        apply IH. lia.
      * destruct IH as (j & Hj & Hn). exists j. split; [lia|exact Hn].
    + exists s. split; [lia|exact Hs].
Qed.

(** ** Increasing lists *)

Section Increasing.
Import HouseSpec.

Lemma increasing_tail (x : Q) (o : list Q) :
  increasing (x :: o) = true -> increasing o = true.
Proof.
  destruct o as [|y o]; [reflexivity|]. cbn [increasing].
  rewrite andb_true_iff. tauto.
Qed.

Lemma increasing_head (x : Q) (o : list Q) (j : nat) (y : Q) :
  increasing (x :: o) = true -> nth_error o j = Some y -> x < y.
Proof.
  revert x j. induction o as [|z o IH]; intros x j Hinc Hy.
  - destruct j; discriminate.
  - cbn [increasing] in Hinc. apply andb_true_iff in Hinc as [Hxz Hinc].
    apply ltb_true in Hxz. destruct j as [|j]; cbn in Hy.
    + injection Hy as <-. exact Hxz.
    + pose proof (IH z j Hinc Hy). lra.
Qed.

Lemma increasing_nth (o : list Q) (i j : nat) (x y : Q) :
  increasing o = true -> (i < j)%nat ->
  nth_error o i = Some x -> nth_error o j = Some y -> x < y.
Proof.
  revert i j. induction o as [|z o IH]; intros i j Hinc Hij Hx Hy.
  - destruct i; discriminate.
  - destruct j as [|j]; [lia|]. cbn in Hy. destruct i as [|i]; cbn in Hx.
    + injection Hx as <-. eapply increasing_head; eassumption.
    + apply (IH i j); try assumption; [eapply increasing_tail; eassumption|lia].
Qed.

Lemma located_exists (o : list Q) (x0 v : Q) :
  increasing (x0 :: o) = true -> x0 <= v -> exists i, located (x0 :: o) v i.
Proof.
  revert x0. induction o as [|z o IH]; intros x0 Hinc Hv.
  - exists 0%nat. exists x0. repeat split; [exact Hv|]. intros y Hy. discriminate.
  - destruct (Qlt_le_dec v z) as [Hlt|Hge].
    + exists 0%nat. exists x0. repeat split; [exact Hv|].
      intros y [= <-]. exact Hlt.
    + destruct (IH z (increasing_tail _ _ Hinc) Hge) as (i & x & Hx & Hle & Hnext).
      exists (S i). exists x. repeat split; assumption.
Qed.

Lemma located_unique (o : list Q) (v : Q) (i j : nat) :
  increasing o = true -> located o v i -> located o v j -> i = j.
Proof.
  intros Hinc (x & Hx & Hxv & Hxn) (y & Hy & Hyv & Hyn).
  assert (Hlt : forall i j x y,
             nth_error o i = Some x -> x <= v ->
             nth_error o j = Some y ->
             (forall z, nth_error o (j + 1) = Some z -> v < z) ->
             ~ (j < i)%nat).
  { clear - Hinc. intros i j x y Hx Hxv Hy Hyn Hji.
    destruct (nth_error o (j + 1)) as [z|] eqn:Hz.
    - specialize (Hyn z eq_refl).
      destruct (Nat.eq_dec (j + 1) i) as [<-|].
      + rewrite Hz in Hx. injection Hx as <-. lra.
      + pose proof (increasing_nth o (j + 1) i z x Hinc ltac:(lia) Hz Hx). lra.
    - apply nth_error_None in Hz.
      assert (nth_error o i <> None) by congruence.
      apply nth_error_Some in H. lia. }
  pose proof (Hlt i j x y Hx Hxv Hy Hyn).
  pose proof (Hlt j i y x Hy Hyv Hx Hxn).
  lia.
Qed.
End Increasing.

(** ** Twelve cusps *)

Section Cusps.
Import HouseSpec.

Lemma well_formed_parts (cusps : list Q) :
  well_formed cusps = true ->
  List.length cusps = 12%nat /\ increasing (offsets cusps) = true.
Proof.
  unfold well_formed. rewrite andb_true_iff, Nat.eqb_eq. tauto.
Qed.

(** Takes a list of known length 12 apart into its entries. *)
Ltac twelve cusps H :=
  do 12 (destruct cusps as [|? cusps]; [discriminate H|]);
  destruct cusps; [clear H|discriminate H].

(** What the loop reads at an index below 11. *)
Lemma test_at_inner (L : Q) (cusps c2 : list Q) (i : nat) :
  List.length cusps = 12%nat -> sentinel_cusps cusps = Some c2 ->
  (i + 1 < 12)%nat ->
  exists a b, nth_error cusps i = Some a
              /\ nth_error cusps (i + 1) = Some b
              /\ next_cusp cusps i = Some b
              /\ house_test_at L c2 i
                 = Some (house_test L (norm360 a) (norm360 b)).
Proof.
  intros Hlen Hc2 Hi. twelve cusps Hlen.
  injection Hc2 as <-.
  do 11 (destruct i as [|i];
         [eexists; eexists; repeat split; reflexivity|]).
  lia.
Qed.

(** What the loop reads at index 11: the last cusp and the sentinel. *)
Lemma test_at_last (L : Q) (cusps c2 : list Q) :
  List.length cusps = 12%nat -> sentinel_cusps cusps = Some c2 ->
  exists c0 a, nth_error cusps 0 = Some c0
               /\ nth_error cusps 11 = Some a
               /\ next_cusp cusps 11 = Some c0
               /\ house_test_at L c2 11
                  = Some (house_test L (norm360 a) (norm360 c0 + 360)).
Proof.
  intros Hlen Hc2. twelve cusps Hlen.
  injection Hc2 as <-.
  eexists; eexists; repeat split; reflexivity.
Qed.

Lemma sentinel_cusps_some (cusps : list Q) :
  List.length cusps = 12%nat -> exists c2, sentinel_cusps cusps = Some c2.
Proof.
  intros Hlen. destruct cusps as [|c0 cusps]; [discriminate|].
  eexists. reflexivity.
Qed.

Lemma offsets_nth (cusps : list Q) (c0 : Q) (i : nat) :
  nth_error cusps 0 = Some c0 ->
  nth_error (offsets cusps) i = option_map (arc c0) (nth_error cusps i).
Proof.
  destruct cusps as [|c cusps]; [discriminate|].
  intros [= ->]. unfold offsets. apply nth_error_map.
Qed.

Lemma offsets_length (cusps : list Q) :
  List.length (offsets cusps) = List.length cusps.
Proof. destruct cusps; [reflexivity|]. unfold offsets. apply length_map. Qed.

(** The cusp after index [i] is the wrapped one only at the last index. *)
Lemma next_cusp_some (cusps : list Q) (i : nat) (b : Q) :
  List.length cusps = 12%nat -> next_cusp cusps i = Some b ->
  (i + 1 < 12)%nat \/ i = 11%nat.
Proof.
  intros Hlen Hb. unfold next_cusp in Hb.
  assert (H : nth_error (cusps ++ firstn 1 cusps) (i + 1) <> None) by congruence.
  apply nth_error_Some in H. rewrite length_app in H.
  pose proof (firstn_le_length 1 cusps). lia.
Qed.
End Cusps.

Section Partition.
Import HouseSpec.
Variable cusps : list Q.
Variable c0 : Q.
Hypothesis cusps_ok : well_formed cusps = true.
Hypothesis first_cusp : nth_error cusps 0 = Some c0.

Lemma cusps_len : List.length cusps = 12%nat.
Proof. apply well_formed_parts. exact cusps_ok. Qed.

Lemma cusps_inc : increasing (offsets cusps) = true.
Proof. apply well_formed_parts. exact cusps_ok. Qed.

Lemma offset_at (i : nat) (a : Q) :
  nth_error cusps i = Some a -> nth_error (offsets cusps) i = Some (arc c0 a).
Proof. intros Ha. rewrite (offsets_nth cusps c0 i first_cusp), Ha. reflexivity. Qed.

Lemma offsets_end : nth_error (offsets cusps) 12 = None.
Proof.
  apply nth_error_None. rewrite offsets_length, cusps_len. lia.
Qed.

Lemma offsets_index (i : nat) (x : Q) :
  nth_error (offsets cusps) i = Some x -> (i < 12)%nat.
Proof.
  intros Hx. assert (H : nth_error (offsets cusps) i <> None) by congruence.
  apply nth_error_Some in H. rewrite offsets_length, cusps_len in H. exact H.
Qed.

Lemma first_offset : nth_error (offsets cusps) 0 = Some (arc c0 c0).
Proof. apply offset_at. exact first_cusp. Qed.

(** Two neighbouring cusps, or the last cusp and the first. *)
Lemma cusp_pair (i : nat) (b : Q) :
  next_cusp cusps i = Some b ->
  ((i + 1 < 12)%nat /\ nth_error cusps (i + 1) = Some b)
  \/ (i = 11%nat /\ b = c0).
Proof.
  intros Hb. destruct (sentinel_cusps_some cusps cusps_len) as [c2 Hc2].
  destruct (next_cusp_some cusps i b cusps_len Hb) as [Hi | ->].
  - left. split; [exact Hi|].
    destruct (test_at_inner 0 cusps c2 i cusps_len Hc2 Hi)
      as (a' & b' & _ & Hb' & Hn' & _).
    congruence.
  - right. split; [reflexivity|].
    destruct (test_at_last 0 cusps c2 cusps_len Hc2)
      as (c0' & a' & H0 & _ & Hn' & _).
    congruence.
Qed.

Lemma last_offset_pos (a : Q) : nth_error cusps 11 = Some a -> 0 < arc c0 a.
Proof.
  intros Ha. rewrite <- (arc_self c0).
  apply (increasing_nth (offsets cusps) 0 11);
    [exact cusps_inc | lia | exact first_offset | apply offset_at; exact Ha].
Qed.

(** A house spans [L] exactly when the offset of [L] falls at its
    position among the offsets of the cusps. *)
Lemma spans_located (i : nat) (L : Q) :
  spans cusps i L <-> located (offsets cusps) (arc c0 L) i.
Proof.
  split.
  - intros (a & b & Ha & Hb & Hab). exists (arc c0 a).
    split; [apply offset_at; exact Ha|].
    destruct (cusp_pair i b Hb) as [[Hi Hb'] | [-> ->]].
    + assert (Hlt : arc c0 a < arc c0 b).
      { apply (increasing_nth (offsets cusps) i (i + 1));
          [exact cusps_inc | lia | apply offset_at; assumption..]. }
      apply (arc_between_offsets c0 a b L Hlt) in Hab as [Hlo Hhi].
      split; [exact Hlo|]. intros y Hy.
      rewrite (offset_at _ _ Hb') in Hy. injection Hy as <-. exact Hhi.
    + apply (arc_to_origin c0 a L (last_offset_pos a Ha)) in Hab.
      split; [exact Hab|]. intros y Hy.
      change (11 + 1)%nat with 12%nat in Hy. rewrite offsets_end in Hy.
      discriminate.
  - intros (x & Hx & Hlo & Hhi).
    pose proof (offsets_index i x Hx) as Hi.
    destruct (sentinel_cusps_some cusps cusps_len) as [c2 Hc2].
    destruct (Nat.eq_dec i 11) as [->|Hne].
    + destruct (test_at_last 0 cusps c2 cusps_len Hc2)
        as (c0' & a & H0 & Ha & Hn & _).
      assert (c0' = c0) by congruence. subst c0'.
      rewrite (offset_at _ _ Ha) in Hx. injection Hx as <-.
      exists a, c0. repeat split; [exact Ha|exact Hn|].
      apply (arc_to_origin c0 a L (last_offset_pos a Ha)). exact Hlo.
    + destruct (test_at_inner 0 cusps c2 i cusps_len Hc2 ltac:(lia))
        as (a & b & Ha & Hb & Hn & _).
      rewrite (offset_at _ _ Ha) in Hx. injection Hx as <-.
      exists a, b. repeat split; [exact Ha|exact Hn|].
      assert (Hlt : arc c0 a < arc c0 b).
      { apply (increasing_nth (offsets cusps) i (i + 1));
          [exact cusps_inc | lia | apply offset_at; assumption..]. }
      apply (arc_between_offsets c0 a b L Hlt).
      split; [exact Hlo|]. apply Hhi. apply offset_at. exact Hb.
Qed.

(** The houses partition the circle: every longitude lies in the span of
    one house, and of one only. *)
Lemma spans_exists (L : Q) : exists i, (i < 12)%nat /\ spans cusps i L.
Proof.
  pose proof first_offset as H0. pose proof cusps_inc as Hinc.
  destruct (offsets cusps) as [|x0 o] eqn:Ho; [discriminate|].
  injection H0 as ->.
  destruct (located_exists o (arc c0 c0) (arc c0 L) Hinc) as [i Hi].
  { rewrite arc_self. apply arc_range. }
  rewrite <- Ho in Hi. exists i. split; [|apply spans_located; exact Hi].
  destruct Hi as (x & Hx & _). exact (offsets_index i x Hx).
Qed.

Lemma spans_unique (L : Q) (i j : nat) :
  spans cusps i L -> spans cusps j L -> i = j.
Proof.
  rewrite !spans_located. apply located_unique. exact cusps_inc.
Qed.
End Partition.

(** ** The assigner on well-formed cusps *)

Section Assign.
Import HouseSpec.
Variable cusps : list Q.
Variable L : Q.
Hypothesis cusps_ok : well_formed cusps = true.

(** Below index 11 the loop's test is the span of the house. *)
Lemma inner_test_spans (c2 : list Q) (i : nat) :
  sentinel_cusps cusps = Some c2 -> (i + 1 < 12)%nat ->
  exists t, house_test_at (norm360 L) c2 i = Some t
            /\ (t = true <-> spans cusps i L).
Proof.
  intros Hc2 Hi.
  destruct (test_at_inner (norm360 L) cusps c2 i (cusps_len cusps cusps_ok) Hc2 Hi)
    as (a & b & Ha & _ & Hn & Ht).
  eexists. split; [exact Ht|].
  rewrite (house_test_arc _ _ _ (norm360_range L) (norm360_range a)
             (norm360_range b)).
  rewrite !arc_norm360. split.
  - intros Hab. exists a, b. auto.
  - intros (a' & b' & Ha' & Hn' & Hab).
    assert (a' = a) by congruence. assert (b' = b) by congruence.
    subst. exact Hab.
Qed.

(** At index 11 the loop only asks whether [L] is at or above the last
    cusp. *)
Lemma last_test (c2 : list Q) :
  sentinel_cusps cusps = Some c2 ->
  exists c0 a t, nth_error cusps 0 = Some c0 /\ nth_error cusps 11 = Some a
                 /\ house_test_at (norm360 L) c2 11 = Some t
                 /\ (t = true <-> norm360 a <= norm360 L).
Proof.
  intros Hc2.
  destruct (test_at_last (norm360 L) cusps c2 (cusps_len cusps cusps_ok) Hc2)
    as (c0 & a & H0 & Ha & _ & Ht).
  exists c0, a, (house_test (norm360 L) (norm360 a) (norm360 c0 + 360)).
  split; [exact H0|]. split; [exact Ha|]. split; [exact Ht|].
  apply (house_test_sentinel _ _ _ (norm360_range L) (norm360_range a)
           (norm360_range c0)).
Qed.

(** The loop returns the house that spans [L] when that house is one of
    the first eleven; for the twelfth it returns 12 or runs out. *)
Lemma house_scan_spans (i : nat) :
  spans cusps i L ->
  ((i + 1 < 12)%nat /\ house_scan L cusps = Returned (i + 1))
  \/ (i = 11%nat
      /\ (house_scan L cusps = Returned 12 \/ house_scan L cusps = Fell_through)).
Proof.
  intros Hspan.
  pose proof (cusps_len cusps cusps_ok) as Hlen.
  destruct (sentinel_cusps_some cusps Hlen) as [c2 Hc2].
  destruct (last_test c2 Hc2) as (c0 & a11 & t11 & H0 & H11 & Ht11 & _).
  assert (Hi : (i < 12)%nat).
  { apply (spans_located cusps c0 cusps_ok H0) in Hspan.
    destruct Hspan as (x & Hx & _).
    exact (offsets_index cusps cusps_ok i x Hx). }
  assert (Hinner : forall j, (j + 1 < 12)%nat -> j <> i ->
                             house_test_at (norm360 L) c2 j = Some false).
  { intros j Hj Hne. destruct (inner_test_spans c2 j Hc2 Hj) as (t & Ht & Hiff).
    rewrite Ht. f_equal. destruct t; [|reflexivity].
    exfalso. apply Hne. apply (spans_unique cusps c0 cusps_ok H0 L); [|exact Hspan].
    apply Hiff. reflexivity. }
  unfold house_scan. rewrite Hc2.
  pose proof (house_loop_seq (norm360 L) c2 12 0) as Hloop.
  destruct (house_loop (norm360 L) c2 (seq 0 12)) as [h| |].
  - destruct Hloop as (k & -> & Hk & Htrue & Hpre).
    destruct (Nat.eq_dec k i) as [->|Hne].
    + destruct (Nat.eq_dec i 11) as [->|]; [right; auto|left; split; [lia|reflexivity]].
    + destruct (Nat.eq_dec k 11) as [->|].
      * destruct (Nat.eq_dec i 11) as [->|]; [congruence|].
        destruct (inner_test_spans c2 i Hc2 ltac:(lia)) as (t & Ht & Hiff).
        rewrite (Hpre i ltac:(lia)) in Ht. injection Ht as <-.
        apply Hiff in Hspan. discriminate.
      * rewrite (Hinner k ltac:(lia) Hne) in Htrue. discriminate.
  - destruct (Nat.eq_dec i 11) as [->|]; [right; auto|].
    destruct (inner_test_spans c2 i Hc2 ltac:(lia)) as (t & Ht & Hiff).
    rewrite (Hloop i ltac:(lia)) in Ht. injection Ht as <-.
    apply Hiff in Hspan. discriminate.
  - destruct Hloop as (j & Hj & Hnone). exfalso.
    destruct (Nat.eq_dec j 11) as [->|]; [congruence|].
    destruct (inner_test_spans c2 j Hc2 ltac:(lia)) as (t & Ht & _). congruence.
Qed.

(** On well-formed cusps [house_for] gives the house that spans [L]. *)
Lemma house_for_spans (i : nat) :
  spans cusps i L -> house_for L cusps = Some (i + 1)%nat.
Proof.
  intros Hspan. unfold house_for.
  destruct (house_scan_spans i Hspan) as [[_ ->] | [-> [-> | ->]]]; reflexivity.
Qed.
(** A longitude equal to a cusp lies in the house that starts there. *)
Lemma cusp_spans_own_house (i : nat) (c : Q) :
  nth_error cusps i = Some c -> L == c -> spans cusps i L.
Proof.
  intros Hc HL.
  destruct (sentinel_cusps_some cusps (cusps_len cusps cusps_ok)) as [c2 Hc2].
  destruct (last_test c2 Hc2) as (c0 & _ & _ & H0 & _).
  apply (spans_located cusps c0 cusps_ok H0).
  exists (arc c0 c). split; [apply (offset_at cusps c0 H0); exact Hc|].
  split; [rewrite HL; lra|].
  intros y Hy. rewrite HL.
  apply (increasing_nth (offsets cusps) i (i + 1));
    [exact (cusps_inc cusps cusps_ok) | lia | | exact Hy].
  apply (offset_at cusps c0 H0). exact Hc.
Qed.

(** The loop runs out exactly when the normalised longitude lies below the
    first cusp and the first cusp below the last one. *)
Lemma fell_through_iff (c0 c11 : Q) :
  nth_error cusps 0 = Some c0 -> nth_error cusps 11 = Some c11 ->
  (house_scan L cusps = Fell_through
   <-> norm360 L < norm360 c0 /\ norm360 c0 < norm360 c11).
Proof.
  intros H0 H11.
  pose proof (cusps_len cusps cusps_ok) as Hlen.
  destruct (sentinel_cusps_some cusps Hlen) as [c2 Hc2].
  destruct (test_at_last (norm360 L) cusps c2 Hlen Hc2)
    as (c0' & a & H0' & Ha & Hn & Ht).
  assert (c0' = c0) by congruence. assert (a = c11) by congruence. subst c0' a.
  pose proof (house_test_sentinel _ _ _ (norm360_range L) (norm360_range c11)
                (norm360_range c0)) as Hsent.
  pose proof (norm360_range L). pose proof (norm360_range c0).
  pose proof (norm360_range c11).
  assert (Hspan : spans cusps 11 L
                  <-> arc (norm360 c11) (norm360 L)
                      < arc (norm360 c11) (norm360 c0)).
  { rewrite !arc_norm360. split.
    - intros (a' & b' & Ha' & Hb' & Hab).
      assert (a' = c11) by congruence. assert (b' = c0) by congruence.
      subst. exact Hab.
    - intros Hab. exists c11, c0. auto. }
  pose proof (house_loop_seq (norm360 L) c2 12 0) as Hloop.
  split.
  - intros Hfell.
    assert (Hbelow : norm360 L < norm360 c11).
    { unfold house_scan in Hfell. rewrite Hc2 in Hfell. rewrite Hfell in Hloop.
      specialize (Hloop 11%nat ltac:(lia)). rewrite Ht in Hloop.
      injection Hloop as Hf. apply Qnot_le_lt. intros Hle.
      apply Hsent in Hle. congruence. }
    destruct (spans_exists cusps c0 cusps_ok H0 L) as (i & Hi & Hsp).
    destruct (house_scan_spans i Hsp) as [[_ Hret] | [-> _]]; [congruence|].
    apply Hspan in Hsp. rewrite (arc_below _ (norm360 L)) in Hsp by lra.
    destruct (Qlt_le_dec (norm360 c0) (norm360 c11)).
    + rewrite (arc_below _ (norm360 c0)) in Hsp by lra. lra.
    + rewrite (arc_above _ (norm360 c0)) in Hsp by lra. lra.
  - intros [HL Hc].
    assert (Hsp : spans cusps 11 L).
    { apply Hspan. rewrite !arc_below by lra. lra. }
    destruct (house_scan_spans 11 Hsp) as [[Hlt _] | [_ [Hret | Hfell]]];
      [lia | | exact Hfell].
    exfalso. unfold house_scan in Hret. rewrite Hc2 in Hret.
    rewrite Hret in Hloop. destruct Hloop as (k & Hk & _ & Htrue & _).
    assert (k = 11%nat) by lia. subst k. rewrite Ht in Htrue.
    injection Htrue as Htrue. apply Hsent in Htrue. lra.
Qed.

(** When the loop returns, the test held at the returned index. *)
Lemma returned_test (h : nat) :
  house_scan L cusps = Returned h ->
  exists c2 i, sentinel_cusps cusps = Some c2 /\ (i < 12)%nat
               /\ h = (i + 1)%nat
               /\ house_test_at (norm360 L) c2 i = Some true.
Proof.
  unfold house_scan. destruct (sentinel_cusps cusps) as [c2|]; [|discriminate].
  intros Hret. pose proof (house_loop_seq (norm360 L) c2 12 0) as Hloop.
  rewrite Hret in Hloop. destruct Hloop as (i & -> & Hi & Ht & _).
  exists c2, i. repeat split; [lia|exact Ht].
Qed.
End Assign.

(** C2.  For every longitude and every well-formed set of twelve cusps,
    [house_for] returns one house number, in 1..12; it is the number of the
    one house whose span contains the longitude; and a longitude equal to a
    cusp gets the house that starts at that cusp.  With the cusps
    0, 30, ..., 330, longitude 15 gets house 1 and longitude 345 house 12. *)
Theorem house_for_partition :
  (forall (L : Q) (cusps : list Q),
      HouseSpec.well_formed cusps = true ->
      exists h,
        house_for L cusps = Some h
        /\ (1 <= h <= 12)%nat
        /\ HouseSpec.spans cusps (h - 1) L
        /\ (forall i, HouseSpec.spans cusps i L -> h = (i + 1)%nat)
        /\ (forall i c, nth_error cusps i = Some c -> L == c ->
                        h = (i + 1)%nat))
  /\ house_for 15 equal_cusps = Some 1%nat
  /\ house_for 345 equal_cusps = Some 12%nat.
Proof.
  split; [|split; vm_compute; reflexivity].
  intros L cusps Hwf.
  destruct (sentinel_cusps_some cusps (cusps_len cusps Hwf)) as [c2 Hc2].
  destruct (last_test cusps L Hwf c2 Hc2) as (c0 & _ & _ & H0 & _).
  destruct (spans_exists cusps c0 Hwf H0 L) as (i & Hi & Hsp).
  exists (i + 1)%nat.
  split; [apply house_for_spans; assumption|].
  split; [lia|].
  split; [replace (i + 1 - 1)%nat with i by lia; exact Hsp|].
  split.
  - intros j Hj. f_equal. exact (spans_unique cusps c0 Hwf H0 L i j Hsp Hj).
  - intros j c Hc HL. f_equal.
    apply (spans_unique cusps c0 Hwf H0 L i j Hsp).
    exact (cusp_spans_own_house cusps L Hwf j c Hc HL).
Qed.

Lemma house_for_partition_witness :
  HouseSpec.well_formed shifted_cusps = true
  /\ exists h, house_for 340 shifted_cusps = Some h /\ h = 12%nat.
Proof.
  split; [reflexivity|].
  destruct (proj1 house_for_partition 340 shifted_cusps eq_refl)
    as (h & Hh & _ & _ & _ & Hcusp).
  exists h. split; [exact Hh|].
  apply (Hcusp 11%nat 340); reflexivity.
Defined.

(** C4, as stated, fails: with the cusps 10, 40, ..., 340 and longitude 5
    no index of the loop satisfies the membership test, and the loop runs
    out into the default [return 12]. *)
Lemma fallback_reached :
  HouseSpec.well_formed shifted_cusps = true
  /\ house_scan 5 shifted_cusps = Fell_through
  /\ ~ some_index_matches 5 shifted_cusps.
Proof.
  split; [reflexivity|]. split; [vm_compute; reflexivity|].
  intros (c2 & i & Hc2 & Hi & Ht). injection Hc2 as <-.
  do 12 (destruct i as [|i]; [vm_compute in Ht; discriminate|]).
  lia.
Qed.

(** C4, amended.  On well-formed cusps the default [return 12] is reached
    exactly when, after normalisation, the longitude lies below the first
    cusp and the first cusp below the twelfth (the twelfth house runs
    through 0 and the longitude lies in its part after 0); the twelfth house
    is then the one whose span contains the longitude.  In every other case
    some index in 0..11 satisfies the membership test. *)
Theorem fallback_only_in_wrapped_last_house
  (L : Q) (cusps : list Q) (c0 c11 : Q) :
  HouseSpec.well_formed cusps = true ->
  nth_error cusps 0 = Some c0 -> nth_error cusps 11 = Some c11 ->
  (house_scan L cusps = Fell_through
   <-> norm360 L < norm360 c0 /\ norm360 c0 < norm360 c11)
  /\ (house_scan L cusps = Fell_through -> HouseSpec.spans cusps 11 L)
  /\ (house_scan L cusps <> Fell_through -> some_index_matches L cusps).
Proof.
  intros Hwf H0 H11. split; [|split].
  - exact (fell_through_iff cusps L Hwf c0 c11 H0 H11).
  - intros Hfell.
    destruct (spans_exists cusps c0 Hwf H0 L) as (i & Hi & Hsp).
    destruct (house_scan_spans cusps L Hwf i Hsp) as [[_ Hret] | [-> _]];
      [congruence|exact Hsp].
  - intros Hne.
    destruct (spans_exists cusps c0 Hwf H0 L) as (i & Hi & Hsp).
    assert (Hret : exists h, house_scan L cusps = Returned h).
    { destruct (house_scan_spans cusps L Hwf i Hsp)
        as [[_ Hret] | [_ [Hret | Hfell]]]; eauto. contradiction. }
    destruct Hret as [h Hret].
    destruct (returned_test cusps L h Hret) as (c2 & k & Hc2 & Hk & _ & Ht).
    exists c2, k. auto.
Qed.

Lemma fallback_only_in_wrapped_last_house_witness :
  house_scan 5 shifted_cusps = Fell_through
  /\ HouseSpec.spans shifted_cusps 11 5.
Proof.
  destruct (fallback_only_in_wrapped_last_house 5 shifted_cusps 10 340
              eq_refl eq_refl eq_refl) as (Hiff & Hspan & _).
  assert (Hfell : house_scan 5 shifted_cusps = Fell_through).
  { apply Hiff. split; vm_compute; reflexivity. }
  split; [exact Hfell | exact (Hspan Hfell)].
Defined.

(** ** Days to exact *)

#[global] Instance round_half_even_Proper : Proper (Qeq ==> eq) Py.round_half_even.
Proof.
  intros x y Hxy. unfold Py.round_half_even.
  rewrite (Qfloor_comp x y Hxy).
  assert (Hc : Qcompare (x - inject_Z (Qfloor y)) (1 # 2)
               = Qcompare (y - inject_Z (Qfloor y)) (1 # 2)).
  { apply Qcompare_comp; [rewrite Hxy|]; reflexivity. }
  rewrite Hc. reflexivity.
Qed.

(** Rounding is done on the value: equal rationals round to the same
    fraction in lowest terms. *)
#[global] Instance round_Proper : Proper (Qeq ==> eq ==> eq) Py.round.
Proof.
  intros x y Hxy n ? <-. unfold Py.round. apply Qred_complete.
  rewrite Hxy. reflexivity.
Qed.






Lemma rel_speed_pos (speed : Q) : 0 < rel_speed speed.
Proof.
  unfold rel_speed. destruct (Qeq_bool (Qabs speed) 0) eqn:He.
  - reflexivity.
  - apply Qeq_bool_neq in He. pose proof (Qabs_nonneg speed). lra.
Qed.


Lemma delta_nonneg (tlon nlon : Q) : 0 <= delta tlon nlon.
Proof. apply Qabs_nonneg. Qed.


Lemma approx_days_nonneg (tlon nlon speed : Q) : 0 <= approx_days tlon nlon speed.
Proof.
  unfold approx_days. apply round_nonneg.
  pose proof (rel_speed_pos speed). pose proof (delta_nonneg tlon nlon).
  apply Qle_shift_div_l; lra.
Qed.


Lemma hits_of_inv (t : Planet.t) (natal_planets : list Planet.t) (h : Hit.t) :
  In h (hits_of t natal_planets) ->
  exists n, In n natal_planets
            /\ aspect_between (Planet.lon t) (Planet.lon n) TRANSIT_ORB
               = Some (Hit.type h, Hit.orb h)
            /\ Hit.approx_days_to_exact h
               = approx_days (Planet.lon t) (Planet.lon n) (Planet.speed t).
Proof.
  unfold hits_of. rewrite in_flat_map. intros (n & Hn & Hh).
  exists n. split; [exact Hn|].
  destruct (aspect_between _ _ _) as [[typ orb]|]; [|contradiction].
  destruct Hh as [<-|[]]. cbn. auto.
Qed.




(** ** Chart building *)

Section Determinism.
Variable UT : Type.
Variable strftime : UT -> string.
Variable calc_ut : Q -> body -> Q * Q * Q * Q.
Variable houses : Q -> Q -> Q -> list Q * list Q.
Variable geocoder : string -> option (Q * Q).
Variable local_to_ut : string -> string -> string -> string + Q * UT.
Variable ASTRO_KEY : option string.

Lemma natal_response (rate : string -> list Q) (now : Q) (req : Request.t) :
  snd (natal UT strftime calc_ut houses geocoder local_to_ut ASTRO_KEY
         rate now req) = Rate_limited
  \/ snd (natal UT strftime calc_ut houses geocoder local_to_ut ASTRO_KEY
            rate now req)
     = admitted_response UT strftime calc_ut houses geocoder local_to_ut
         ASTRO_KEY req.
Proof.
  unfold natal, admitted_response.
  destruct (check_rate _ _ _) as [rate' [|]]; cbn [negb]; [right|left; reflexivity].
  destruct (negb (require_key ASTRO_KEY req)); [reflexivity|].
  destruct (Request.json req) as [p|]; [|reflexivity].
  destruct (fst (run geocoder local_to_ut (natal_payload p true)))
    as [[basis|] [err|]]; try reflexivity.
  destruct (natal_chart _ _ _ _ basis); reflexivity.
Qed.

(** The planet list asks the ephemeris only for the ten bodies at the given
    Julian Day. *)
Lemma planet_positions_ext (calc_ut' : Q -> body -> Q * Q * Q * Q)
    (jd_ut orb : Q) :
  (forall pid, calc_ut' jd_ut pid = calc_ut jd_ut pid) ->
  planet_positions calc_ut' jd_ut orb = planet_positions calc_ut jd_ut orb.
Proof.
  intros Hsame. unfold planet_positions. apply map_ext.
  intros [name pid]. rewrite Hsame. reflexivity.
Qed.

Lemma natal_chart_ext (calc_ut' : Q -> body -> Q * Q * Q * Q)
    (houses' : Q -> Q -> Q -> list Q * list Q) (basis : Basis.t UT)
    (lat lon : Q) :
  Basis.lat basis = Some lat -> Basis.lon basis = Some lon ->
  (forall pid, calc_ut' (Basis.jd_ut basis) pid
               = calc_ut (Basis.jd_ut basis) pid) ->
  houses' (Basis.jd_ut basis) lat lon = houses (Basis.jd_ut basis) lat lon ->
  natal_chart UT strftime calc_ut' houses' basis
  = natal_chart UT strftime calc_ut houses basis.
Proof.
  intros Hlat Hlon Hcalc Hhouses. unfold natal_chart, houses_placidus.
  rewrite Hlat, Hlon, Hhouses.
  rewrite (planet_positions_ext calc_ut' _ _ Hcalc). reflexivity.
Qed.
End Determinism.

(** C8.  Chart building is deterministic.  With the collaborators as pure
    functions, two runs of [natal] on the same request, from any two states
    of the rate limiter and at any two times, give the same response unless
    one of them is refused by the rate limit; in particular two charts that
    are returned are equal in every field (planets, houses, ascendant,
    midheaven, aspects).  The chart for a basis depends on the ephemeris only
    through its answers for the ten bodies at the Julian Day and for the
    houses at the Julian Day and location. *)
Theorem natal_deterministic
    (UT : Type) (strftime : UT -> string)
    (calc_ut : Q -> body -> Q * Q * Q * Q)
    (houses : Q -> Q -> Q -> list Q * list Q)
    (geocoder : string -> option (Q * Q))
    (local_to_ut : string -> string -> string -> string + Q * UT)
    (ASTRO_KEY : option string) (req : Request.t)
    (rate1 rate2 : string -> list Q) (now1 now2 : Q) :
  let first :=
    snd (natal UT strftime calc_ut houses geocoder local_to_ut ASTRO_KEY
           rate1 now1 req) in
  let second :=
    snd (natal UT strftime calc_ut houses geocoder local_to_ut ASTRO_KEY
           rate2 now2 req) in
  (first <> Rate_limited -> second <> Rate_limited -> first = second)
  /\ (forall c1 c2, first = Chart_ok c1 -> second = Chart_ok c2 -> c1 = c2)
  /\ (forall calc_ut' houses' basis lat lon,
         Basis.lat basis = Some lat -> Basis.lon basis = Some lon ->
         (forall pid, calc_ut' (Basis.jd_ut basis) pid
                      = calc_ut (Basis.jd_ut basis) pid) ->
         houses' (Basis.jd_ut basis) lat lon
         = houses (Basis.jd_ut basis) lat lon ->
         natal_chart UT strftime calc_ut' houses' basis
         = natal_chart UT strftime calc_ut houses basis).
Proof.
  intros first second.
  assert (Hsame : first <> Rate_limited -> second <> Rate_limited ->
                  first = second).
  { intros H1 H2.
    destruct (natal_response UT strftime calc_ut houses geocoder local_to_ut
                ASTRO_KEY rate1 now1 req) as [Hr1 | Hr1]; [contradiction|].
    destruct (natal_response UT strftime calc_ut houses geocoder local_to_ut
                ASTRO_KEY rate2 now2 req) as [Hr2 | Hr2]; [contradiction|].
    unfold first, second. rewrite Hr1, Hr2. reflexivity. }
  split; [exact Hsame|]. split.
  - intros c1 c2 H1 H2.
    assert (H : first = second) by (apply Hsame; congruence).
    rewrite H1, H2 in H. injection H as ->. reflexivity.
  - intros calc_ut' houses' basis lat lon. apply natal_chart_ext.
Qed.

Lemma natal_deterministic_witness :
  exists c,
    snd (natal string (fun s => s) Fixture.calc_ut Fixture.houses
           Fixture.geocoder Fixture.local_to_ut None
           Fixture.no_requests 0 Fixture.request) = Chart_ok c
    /\ snd (natal string (fun s => s) Fixture.calc_ut Fixture.houses
              Fixture.geocoder Fixture.local_to_ut None
              (fun k => if String.eqb k "10.0.0.1" then [0] else []) 1
              Fixture.request) = Chart_ok c.
Proof.
  pose proof (natal_deterministic string (fun s => s)
                Fixture.calc_ut Fixture.houses Fixture.geocoder
                Fixture.local_to_ut None Fixture.request
                Fixture.no_requests
                (fun k => if String.eqb k "10.0.0.1" then [0] else []) 0 1)
    as [_ [Hcharts _]].
  assert (H1 : exists c1,
             snd (natal string (fun s => s) Fixture.calc_ut Fixture.houses
                    Fixture.geocoder Fixture.local_to_ut None
                    Fixture.no_requests 0 Fixture.request) = Chart_ok c1)
    by (eexists; vm_compute; reflexivity).
  assert (H2 : exists c2,
             snd (natal string (fun s => s) Fixture.calc_ut Fixture.houses
                    Fixture.geocoder Fixture.local_to_ut None
                    (fun k => if String.eqb k "10.0.0.1" then [0] else []) 1
                    Fixture.request) = Chart_ok c2)
    by (eexists; vm_compute; reflexivity).
  destruct H1 as [c1 H1]. destruct H2 as [c2 H2].
  exists c1. split; [exact H1|].
  rewrite (Hcharts c1 c2 H1 H2). exact H2.
Defined.

(** ** Request validation *)




(** * Further properties of the code *)

(** ** Angles and signs *)





(** ** Separations *)

(** [x] as its remainder plus whole turns. *)
Lemma fmod_decompose (x : Q) :
  x == Py.fmod x 360 + 360 * inject_Z (Qfloor (x / 360)).
Proof. unfold Py.fmod. lra. Qed.

Lemma fmod_opp (x : Q) :
  (Py.fmod x 360 == 0 -> Py.fmod (- x) 360 == 0)
  /\ (0 < Py.fmod x 360 -> Py.fmod (- x) 360 == 360 - Py.fmod x 360).
Proof.
  pose proof (fmod_range 360 ltac:(lra) x) as [Hlo Hhi].
  pose proof (fmod_decompose x) as Hx.
  set (r := Py.fmod x 360) in *. set (k := Qfloor (x / 360)) in *.
  split; intros Hr.
  - apply (fmod_unique 360 ltac:(lra) _ _ (- k)); [|lra..].
    rewrite inject_Z_opp. lra.
  - apply (fmod_unique 360 ltac:(lra) _ _ (- k - 1)); [|lra..].
    unfold Zminus. rewrite inject_Z_plus, !inject_Z_opp.
    change (inject_Z 1) with 1. lra.
Qed.

Lemma fmod_half_turn (x : Q) :
  (Py.fmod x 360 < 180 -> Py.fmod (x + 540) 360 == Py.fmod x 360 + 180)
  /\ (180 <= Py.fmod x 360 -> Py.fmod (x + 540) 360 == Py.fmod x 360 - 180).
Proof.
  pose proof (fmod_range 360 ltac:(lra) x) as [Hlo Hhi].
  pose proof (fmod_decompose x) as Hx.
  set (r := Py.fmod x 360) in *. set (k := Qfloor (x / 360)) in *.
  split; intros Hr.
  - apply (fmod_unique 360 ltac:(lra) _ _ (k + 1)); [|lra..].
    rewrite inject_Z_plus. change (inject_Z 1) with 1. lra.
  - apply (fmod_unique 360 ltac:(lra) _ _ (k + 2)); [|lra..].
    rewrite inject_Z_plus. change (inject_Z 2) with 2. lra.
Qed.

(** [delta] in terms of the remainder of the difference. *)
Lemma delta_remainder (tlon nlon : Q) :
  (Py.fmod (tlon - nlon) 360 < 180 ->
   delta tlon nlon == Py.fmod (tlon - nlon) 360)
  /\ (180 <= Py.fmod (tlon - nlon) 360 ->
      delta tlon nlon == 360 - Py.fmod (tlon - nlon) 360).
Proof.
  pose proof (fmod_range 360 ltac:(lra) (tlon - nlon)) as [Hlo Hhi].
  destruct (fmod_half_turn (tlon - nlon)) as [Hsmall Hbig].
  unfold delta. split; intros Hr.
  - rewrite (Hsmall Hr). rewrite Qabs_pos; lra.
  - rewrite (Hbig Hr). rewrite Qabs_neg; lra.
Qed.

Lemma separation_remainder (a b : Q) :
  (Py.fmod (a - b) 360 < 180 -> separation a b == Py.fmod (a - b) 360)
  /\ (180 <= Py.fmod (a - b) 360 ->
      separation a b == 360 - Py.fmod (a - b) 360).
Proof.
  pose proof (fmod_range 360 ltac:(lra) (a - b)) as [Hlo Hhi].
  destruct (fmod_opp (a - b)) as [Hzero Hpos].
  assert (Hd : Py.fmod (Qabs (a - b)) 360 == Py.fmod (a - b) 360
               \/ (0 < Py.fmod (a - b) 360
                   /\ Py.fmod (Qabs (a - b)) 360 == 360 - Py.fmod (a - b) 360)).
  { destruct (Qlt_le_dec (a - b) 0) as [Hneg | Hnn].
    - assert (Ha : Qabs (a - b) == - (a - b)) by (apply Qabs_neg; lra).
      destruct (Qeq_dec (Py.fmod (a - b) 360) 0) as [Hz | Hnz].
      + left. rewrite Ha, (Hzero Hz), Hz. reflexivity.
      + right. assert (Hp : 0 < Py.fmod (a - b) 360) by lra.
        split; [exact Hp|]. rewrite Ha. exact (Hpos Hp).
    - left. assert (Ha : Qabs (a - b) == a - b) by (apply Qabs_pos; lra).
      rewrite Ha. reflexivity. }
  unfold separation. set (r := Py.fmod (a - b) 360) in *.
  set (d := Py.fmod (Qabs (a - b)) 360) in *.
  split; intros Hr; case_test; destruct Hd as [Hd | [Hp Hd]]; lra.
Qed.

Lemma delta_separation (a b : Q) : delta a b == separation a b.
Proof.
  destruct (delta_remainder a b) as [Hd1 Hd2].
  destruct (separation_remainder a b) as [Hs1 Hs2].
  destruct (Qlt_le_dec (Py.fmod (a - b) 360) 180) as [H | H].
  - rewrite (Hd1 H), (Hs1 H). reflexivity.
  - rewrite (Hd2 H), (Hs2 H). reflexivity.
Qed.

Lemma separation_bounds (a b : Q) : 0 <= separation a b <= 180.
Proof.
  pose proof (fmod_range 360 ltac:(lra) (a - b)) as [Hlo Hhi].
  destruct (separation_remainder a b) as [Hs1 Hs2].
  destruct (Qlt_le_dec (Py.fmod (a - b) 360) 180) as [H | H].
  - rewrite (Hs1 H). lra.
  - rewrite (Hs2 H). lra.
Qed.



(** ** More on the aspect matcher *)

#[global] Instance separation_Proper : Proper (Qeq ==> Qeq ==> Qeq) separation.
Proof.
  intros a a' Ha b b' Hb. unfold separation.
  assert (Hd : Py.fmod (Qabs (a - b)) 360 == Py.fmod (Qabs (a' - b')) 360).
  { apply fmod_Proper; [|reflexivity]. apply Qabs_wd. rewrite Ha, Hb. reflexivity. }
  repeat case_test; lra.
Qed.


(** The scan looks at the value of the separation only. *)
Lemma aspect_scan_Proper (d d' orb : Q) (aspects : list (Q * string)) :
  d == d' -> aspect_scan d orb aspects = aspect_scan d' orb aspects.
Proof.
  intros Hd. induction aspects as [|[ang name] rest IH]; [reflexivity|].
  cbn [aspect_scan].
  assert (Hdiff : Qabs (d - ang) == Qabs (d' - ang)).
  { apply Qabs_wd. rewrite Hd. reflexivity. }
  assert (Hleb : Py.leb (Qabs (d - ang)) orb = Py.leb (Qabs (d' - ang)) orb).
  { unfold Py.leb. rewrite Hdiff. reflexivity. }
  rewrite Hleb, IH, (round_Proper _ _ Hdiff 2%nat 2%nat eq_refl). reflexivity.
Qed.


Lemma Qabs_le_bounds (x y : Q) : Qabs x <= y -> - y <= x /\ x <= y.
Proof. apply Qabs_Qle_condition. Qed.

(** X5.  With an orb below 15 degrees (both orbs of the service, 6 and 3,
    are) a match is unambiguous: no other recognised angle is within the
    orb of the separation, so the order of the checks does not matter. *)
Theorem aspect_unambiguous (a b orb : Q) (name : string) (dev : Q) :
  orb < 15 ->
  aspect_between a b orb = Some (name, dev) ->
  forall ang' name',
    In (ang', name') ASPECTS -> name' <> name ->
    orb < Qabs (separation a b - ang').
Proof.
  intros Horb Hm ang' name' Hin' Hne. unfold aspect_between in Hm.
  destruct (aspect_scan_some _ _ _ _ _ Hm) as (ang & Hin & Hle & _).
  apply Qabs_le_bounds in Hle.
  destruct (Qlt_le_dec orb (Qabs (separation a b - ang'))) as [Hlt | Hge];
    [exact Hlt|].
  apply Qabs_le_bounds in Hge. exfalso.
  in_cases Hin; in_cases Hin'; try (apply Hne; reflexivity); lra.
Qed.

Lemma aspect_unambiguous_witness :
  TRANSIT_ORB < 15
  /\ 3.0 < Qabs (separation 0 90.5 - 120).
Proof.
  split; [reflexivity|].
  apply (aspect_unambiguous 0 90.5 3.0 "square" (1 # 2)
           ltac:(reflexivity) ltac:(vm_compute; reflexivity)
           120 "trine"%string).
  - cbn. tauto.
  - discriminate.
Defined.

Lemma separation_self (a : Q) : separation a a == 0.
Proof.
  assert (Hr : Py.fmod (a - a) 360 == 0).
  { apply (fmod_unique 360 ltac:(lra) _ _ 0); [|lra..].
    change (inject_Z 0) with 0. lra. }
  destruct (separation_remainder a a) as [Hs _].
  rewrite Hs; [exact Hr | rewrite Hr; reflexivity].
Qed.

(** X6.  Edge cases of the matcher: a negative orb never matches; with an
    orb of at least 0 a longitude is in exact conjunction with itself
    (deviation 0); with an orb of 180 or more every pair is reported as a
    conjunction. *)
Theorem aspect_between_edges (a b orb : Q) :
  (orb < 0 -> aspect_between a b orb = None)
  /\ (0 <= orb -> aspect_between a a orb = Some ("conjunction"%string, 0))
  /\ (180 <= orb ->
      exists dev, aspect_between a b orb = Some ("conjunction"%string, dev)).
Proof.
  split; [|split].
  - intros Horb. unfold aspect_between, aspect_scan, ASPECTS.
    repeat (case_test;
      [match goal with
       | H : Qabs ?x <= orb |- _ => pose proof (Qabs_nonneg x); exfalso; lra
       end|]).
    reflexivity.
  - intros Horb. unfold aspect_between.
    rewrite (aspect_scan_Proper _ 0 orb ASPECTS (separation_self a)).
    unfold aspect_scan, ASPECTS.
    case_test; [reflexivity|]. exfalso. revert Hle. apply Qle_not_lt. exact Horb.
  - intros Horb. unfold aspect_between, aspect_scan, ASPECTS.
    pose proof (separation_bounds a b) as [Hlo Hhi].
    case_test; [eexists; reflexivity|].
    exfalso. rewrite Qabs_pos in Hle; lra.
Qed.

Lemma aspect_between_edges_witness :
  aspect_between 200 200 NATAL_ORB = Some ("conjunction"%string, 0)
  /\ aspect_between 10 100 (-1) = None.
Proof.
  split.
  - apply (proj1 (proj2 (aspect_between_edges 200 200 NATAL_ORB))). discriminate.
  - apply (proj1 (aspect_between_edges 10 100 (-1))). reflexivity.
Defined.

(** ** More on the house assigner *)

Lemma house_test_Proper (L L' a b : Q) :
  L == L' -> house_test L a b = house_test L' a b.
Proof.
  intros HL. unfold house_test, Py.leb, Py.ltb. rewrite HL. reflexivity.
Qed.

Lemma house_loop_Proper (L L' : Q) (c2 : list Q) (range : list nat) :
  L == L' -> house_loop L c2 range = house_loop L' c2 range.
Proof.
  intros HL. induction range as [|i rest IH]; [reflexivity|].
  cbn [house_loop]. unfold house_test_at.
  destruct (nth_error c2 i) as [a|]; [|reflexivity].
  destruct (nth_error c2 (i + 1)) as [b|]; [|reflexivity].
  rewrite (house_test_Proper L L' a b HL), IH. reflexivity.
Qed.

Lemma sentinel_cusps_length (cusps c2 : list Q) :
  sentinel_cusps cusps = Some c2 ->
  List.length c2 = (List.length cusps + 1)%nat.
Proof.
  unfold sentinel_cusps. destruct cusps as [|c0 rest]; [discriminate|].
  intros [= <-]. cbn [map app List.length].
  rewrite length_app, length_map. cbn [List.length]. lia.
Qed.

(** X7.  [house_for] never fails on a list of at least twelve cusps, fails
    (with an index error) on an empty list, and whenever it returns, on any
    cusps at all, the house number is between 1 and 12. *)
Theorem house_for_total_on_twelve (L : Q) (cusps : list Q) :
  ((12 <= List.length cusps)%nat -> exists h, house_for L cusps = Some h)
  /\ (forall h, house_for L cusps = Some h -> (1 <= h <= 12)%nat)
  /\ house_for L [] = None.
Proof.
  split; [|split; [|reflexivity]].
  - intros Hlen. unfold house_for, house_scan.
    destruct (sentinel_cusps cusps) as [c2|] eqn:Hc2.
    + pose proof (sentinel_cusps_length cusps c2 Hc2) as Hlen2.
      pose proof (house_loop_seq (norm360 L) c2 12 0) as Hloop.
      destruct (house_loop (norm360 L) c2 (seq 0 12)) as [h| |];
        [eexists; reflexivity..|].
      exfalso. destruct Hloop as (j & Hj & Hnone). unfold house_test_at in Hnone.
      destruct (nth_error c2 j) as [x|] eqn:Hx.
      * destruct (nth_error c2 (j + 1)) as [y|] eqn:Hy; [discriminate|].
        apply nth_error_None in Hy. lia.
      * apply nth_error_None in Hx. lia.
    + destruct cusps; [cbn in Hlen; lia|discriminate].
  - intros h. unfold house_for, house_scan.
    destruct (sentinel_cusps cusps) as [c2|]; [|discriminate].
    pose proof (house_loop_seq (norm360 L) c2 12 0) as Hloop.
    destruct (house_loop (norm360 L) c2 (seq 0 12)) as [h'| |].
    + destruct Hloop as (i & -> & Hi & _). intros [= <-]. lia.
    + intros [= <-]. lia.
    + discriminate.
Qed.

Lemma house_for_total_on_twelve_witness :
  exists h, house_for 123 equal_cusps = Some h /\ (1 <= h <= 12)%nat.
Proof.
  destruct (proj1 (house_for_total_on_twelve 123 equal_cusps))
    as [h Hh]; [cbn; lia|].
  exists h. split; [exact Hh|].
  exact (proj1 (proj2 (house_for_total_on_twelve 123 equal_cusps)) h Hh).
Defined.

(** X8.  The house of a longitude depends on the longitude only up to
    whole turns: in particular a longitude of 360 is assigned like 0. *)
Theorem house_for_whole_turns (L : Q) (k : Z) (cusps : list Q) :
  house_for (L + 360 * inject_Z k) cusps = house_for L cusps.
Proof.
  unfold house_for, house_scan.
  destruct (sentinel_cusps cusps) as [c2|]; [|reflexivity].
  rewrite (house_loop_Proper (norm360 (L + 360 * inject_Z k)) (norm360 L));
    [reflexivity|].
  rewrite !norm360_fmod. apply fmod_shift. lra.
Qed.

(** ** Rate limiter *)

Lemma drop_expired_suffix (now : Q) (q : list Q) :
  exists expired, q = expired ++ drop_expired now q.
Proof.
  induction q as [|t0 rest [expired IH]]; [exists []; reflexivity|].
  cbn [drop_expired]. destruct (Py.ltb RATE_WINDOW (now - t0)).
  - exists (t0 :: expired). cbn [app]. f_equal. exact IH.
  - exists []. reflexivity.
Qed.

Lemma drop_expired_length (now : Q) (q : list Q) :
  (List.length (drop_expired now q) <= List.length q)%nat.
Proof.
  destruct (drop_expired_suffix now q) as [expired H].
  rewrite H at 2. rewrite length_app. lia.
Qed.

(** What stays at the front of the queue is not expired. *)
Lemma drop_expired_head (now t0 : Q) (q rest : list Q) :
  drop_expired now q = t0 :: rest -> now - t0 <= RATE_WINDOW.
Proof.
  induction q as [|t1 q IH]; [discriminate|]. cbn [drop_expired].
  destruct (Py.ltb RATE_WINDOW (now - t1)) eqn:Hexp; [exact IH|].
  intros [= -> _]. apply ltb_false. exact Hexp.
Qed.

Lemma drop_expired_fresh (now t0 : Q) (rest : list Q) :
  now - t0 <= RATE_WINDOW -> drop_expired now (t0 :: rest) = t0 :: rest.
Proof.
  intros Hfresh. cbn [drop_expired].
  apply ltb_false in Hfresh. rewrite Hfresh. reflexivity.
Qed.

(** X9.  [check_rate] touches the queue of the calling client only, never
    lets a queue of at most [RATE_MAX] entries grow beyond [RATE_MAX], and
    records the request exactly when it admits it: an admitted call appends
    the current time, a refused call appends nothing. *)
Theorem check_rate_bounded (rate : string -> list Q) (now : Q) (ip : string) :
  let rate' := fst (check_rate rate now ip) in
  let admitted := snd (check_rate rate now ip) in
  (forall k, k <> ip -> rate' k = rate k)
  /\ ((List.length (rate ip) <= RATE_MAX)%nat ->
      (List.length (rate' ip) <= RATE_MAX)%nat)
  /\ (admitted = true -> rate' ip = drop_expired now (rate ip) ++ [now])
  /\ (admitted = false ->
      rate' ip = drop_expired now (rate ip)
      /\ (RATE_MAX <= List.length (rate' ip) <= List.length (rate ip))%nat).
Proof.
  unfold check_rate. pose proof (drop_expired_length now (rate ip)) as Hlen.
  destruct (RATE_MAX <=? List.length (drop_expired now (rate ip)))%nat eqn:Hfull;
    cbn [fst snd]; rewrite String.eqb_refl.
  - apply Nat.leb_le in Hfull. repeat split; try discriminate; try lia.
    intros k Hk. apply String.eqb_neq in Hk. rewrite Hk. reflexivity.
  - apply Nat.leb_gt in Hfull. repeat split; try discriminate.
    + intros k Hk. apply String.eqb_neq in Hk. rewrite Hk. reflexivity.
    + intros _. rewrite length_app. cbn [List.length]. lia.
Qed.

Lemma check_rate_bounded_witness :
  (List.length
     (fst (check_rate recent_requests 65 "10.0.0.1") "10.0.0.1"%string)
   <= RATE_MAX)%nat.
Proof.
  apply (proj1 (proj2 (check_rate_bounded recent_requests 65 "10.0.0.1"))).
  cbn. unfold RATE_MAX. lia.
Defined.

(** X10.  With a clock that does not run backwards, a queue in time order
    stays in time order, and after every call all the timestamps it holds
    lie within the last [RATE_WINDOW] seconds. *)
Theorem check_rate_window (rate : string -> list Q) (now : Q) (ip : string) :
  StronglySorted Qle (rate ip) ->
  (forall t, In t (rate ip) -> t <= now) ->
  let q' := fst (check_rate rate now ip) ip in
  StronglySorted Qle q'
  /\ forall t, In t q' -> now - RATE_WINDOW <= t /\ t <= now.
Proof.
  intros Hsorted Hpast q'.
  destruct (drop_expired_suffix now (rate ip)) as [expired Hsplit].
  assert (Hkept_sorted : StronglySorted Qle (drop_expired now (rate ip))).
  { rewrite Hsplit in Hsorted. clear - Hsorted.
    induction expired as [|e expired IH]; [exact Hsorted|].
    apply IH. cbn [app] in Hsorted. inversion Hsorted. assumption. }
  assert (Hkept_past : forall t, In t (drop_expired now (rate ip)) -> t <= now).
  { intros t Ht. apply Hpast. rewrite Hsplit. apply in_or_app. right. exact Ht. }
  assert (Hkept_fresh : forall t, In t (drop_expired now (rate ip)) ->
                                   now - RATE_WINDOW <= t).
  { destruct (drop_expired now (rate ip)) as [|t0 rest] eqn:Hkept;
      [intros t []|].
    pose proof (drop_expired_head now t0 (rate ip) rest Hkept) as Hhead.
    inversion Hkept_sorted as [|? ? _ Hall]; subst.
    intros t [<- | Ht]; [lra|].
    rewrite Forall_forall in Hall. specialize (Hall t Ht). lra. }
  assert (Happend : StronglySorted Qle (drop_expired now (rate ip) ++ [now])).
  { clear - Hkept_sorted Hkept_past.
    induction (drop_expired now (rate ip)) as [|t0 rest IH]; cbn [app].
    - constructor; constructor.
    - inversion Hkept_sorted as [|? ? Hrest Hall]; subst.
      constructor.
      + apply IH; [exact Hrest|]. intros t Ht. apply Hkept_past. right. exact Ht.
      + apply Forall_app. split; [exact Hall|].
        constructor; [apply Hkept_past; left; reflexivity | constructor]. }
  unfold q', check_rate.
  destruct (RATE_MAX <=? List.length (drop_expired now (rate ip)))%nat;
    cbn [fst]; rewrite String.eqb_refl.
  - split; [exact Hkept_sorted|]. intros t Ht. split; auto.
  - split; [exact Happend|]. intros t Ht.
    apply in_app_or in Ht as [Ht | [<- | []]]; [split; auto|].
    unfold RATE_WINDOW. split; lra.
Qed.

Lemma check_rate_window_witness :
  StronglySorted Qle
    (fst (check_rate recent_requests 65 "10.0.0.1") "10.0.0.1"%string).
Proof.
  apply (check_rate_window recent_requests 65 "10.0.0.1").
  - repeat constructor; discriminate.
  - intros t Ht. cbn in Ht.
    destruct Ht as [<- | [<- | [<- | []]]]; discriminate.
Defined.

(** X11.  Who is admitted: a client with no recorded request, and any
    client with fewer than [RATE_MAX] recorded requests, is admitted; a
    client whose oldest recorded request is still inside the window and who
    has [RATE_MAX] or more of them is refused, and the queue stays as it
    is. *)
Theorem check_rate_admission (rate : string -> list Q) (now : Q) (ip : string) :
  ((List.length (rate ip) < RATE_MAX)%nat ->
   snd (check_rate rate now ip) = true)
  /\ (rate ip = [] -> fst (check_rate rate now ip) ip = [now])
  /\ (forall t0 rest,
         rate ip = t0 :: rest -> now - t0 <= RATE_WINDOW ->
         (RATE_MAX <= List.length (rate ip))%nat ->
         snd (check_rate rate now ip) = false
         /\ fst (check_rate rate now ip) ip = rate ip).
Proof.
  unfold check_rate. split; [|split].
  - intros Hlen. pose proof (drop_expired_length now (rate ip)) as Hdrop.
    destruct (RATE_MAX <=? List.length (drop_expired now (rate ip)))%nat eqn:Hfull;
      [|reflexivity].
    apply Nat.leb_le in Hfull. lia.
  - intros Hempty. rewrite Hempty. cbn. rewrite String.eqb_refl. reflexivity.
  - intros t0 rest Hq Hfresh Hlen. rewrite Hq in *.
    rewrite (drop_expired_fresh now t0 rest Hfresh).
    apply Nat.leb_le in Hlen. rewrite Hlen. cbn [fst snd].
    rewrite String.eqb_refl. split; reflexivity.
Qed.

Lemma check_rate_admission_witness :
  snd (check_rate recent_requests 65 "10.0.0.1") = true
  /\ fst (check_rate (fun _ => []) 65 "10.0.0.1") "10.0.0.1"%string = [65].
Proof.
  split.
  - apply (proj1 (check_rate_admission recent_requests 65 "10.0.0.1")).
    cbn. unfold RATE_MAX. lia.
  - apply (proj1 (proj2 (check_rate_admission (fun _ => []) 65 "10.0.0.1"))).
    reflexivity.
Defined.

(** ** Access key *)

(** X12.  Without a configured key (unset or empty) every request passes
    [require_key]; with a key configured a request passes exactly when its
    [X-Astro-Key] header is that key, so a request without the header is
    refused. *)
Theorem require_key_cases (ASTRO_KEY : option string) (req : Request.t) :
  (ASTRO_KEY = None \/ ASTRO_KEY = Some EmptyString ->
   require_key ASTRO_KEY req = true)
  /\ (forall key, ASTRO_KEY = Some key -> key <> EmptyString ->
        (require_key ASTRO_KEY req = true
         <-> Request.x_astro_key req = Some key)).
Proof.
  split.
  - intros [-> | ->]; reflexivity.
  - intros key -> Hkey. unfold require_key, truthy, nonempty. cbn [or_empty].
    apply String.eqb_neq in Hkey. rewrite Hkey. cbn [negb].
    destruct (Request.x_astro_key req) as [k|].
    + rewrite String.eqb_eq. split; [intros ->; reflexivity | intros [= ->]; reflexivity].
    + split; discriminate.
Qed.

Lemma require_key_cases_witness :
  require_key (Some "s3cret"%string)
    {| Request.remote_addr := None; Request.x_astro_key := None;
       Request.json := None |} = false
  /\ require_key None Fixture.request = true.
Proof.
  split.
  - destruct (require_key (Some "s3cret"%string)
                {| Request.remote_addr := None; Request.x_astro_key := None;
                   Request.json := None |}) eqn:Hk; [|reflexivity].
    apply (proj2 (require_key_cases (Some "s3cret"%string) _) "s3cret"%string
             eq_refl ltac:(discriminate)) in Hk.
    discriminate.
  - apply (proj1 (require_key_cases None Fixture.request)). left. reflexivity.
Defined.

(** ** More on request validation *)

(** Unfolds [natal_payload] down to the calls and splits on every test and
    on every answer of the two collaborators. *)
Ltac payload_cases_with geo ltu :=
  unfold natal_payload, geocode, convert_time;
  repeat match goal with
    | |- context [if negb ?c then _ else _] => destruct c eqn:?; cbn [negb]
    | |- context [if ?c then _ else _] => destruct c eqn:?
    | |- context [geo ?q] => destruct (geo q) as [[? ?]|] eqn:?
    | |- context [ltu ?d ?t ?z] => destruct (ltu d t z) as [?|[? ?]] eqn:?
    | _ => progress cbn [bind run fst snd]
    end.

Section Payloads.
Variable UT : Type.
Variable geocoder : string -> option (Q * Q).
Variable local_to_ut : string -> string -> string -> string + Q * UT.
Variable p : Payload.t.


(** A basis is returned only when the three fields are present and the
    time conversion of the date, the time and the stripped timezone
    succeeded; it carries that timezone and the converted moment. *)
Lemma natal_payload_basis (require_geo : bool) (basis : Basis.t UT) :
  fst (fst (run geocoder local_to_ut (natal_payload p require_geo)))
  = Some basis ->
  truthy (Payload.date p) = true /\ truthy (Payload.time p) = true
  /\ nonempty (Basis.tz basis) = true
  /\ Basis.tz basis = strip (or_empty (Payload.timezone p))
  /\ local_to_ut (or_empty (Payload.date p)) (or_empty (Payload.time p))
       (Basis.tz basis)
     = inr (Basis.jd_ut basis, Basis.ut_dt basis).
Proof.
  set (P := fun b : Basis.t UT =>
              truthy (Payload.date p) = true /\ truthy (Payload.time p) = true
              /\ nonempty (Basis.tz b) = true
              /\ Basis.tz b = strip (or_empty (Payload.timezone p))
              /\ local_to_ut (or_empty (Payload.date p))
                   (or_empty (Payload.time p)) (Basis.tz b)
                 = inr (Basis.jd_ut b, Basis.ut_dt b)).
  change (fst (fst (run geocoder local_to_ut (natal_payload p require_geo)))
          = Some basis -> P basis).
  payload_cases_with geocoder local_to_ut; try discriminate;
    intros [= <-]; subst P; cbn;
    repeat match goal with
      | H : _ && _ = true |- _ => apply andb_true_iff in H as [? ?]
      end;
    repeat split; assumption.
Qed.

Lemma natal_payload_answer (require_geo : bool) :
  let res := fst (run geocoder local_to_ut (natal_payload p require_geo)) in
  (exists basis, res = (Some basis, None))
  \/ (exists err, res = (None, Some err)
        /\ (err = MISSING_FIELDS \/ err = GEOCODE_FAILED
            \/ exists e, err = TIME_FAILED e)).
Proof.
  payload_cases_with geocoder local_to_ut; eauto 8.
Qed.

Lemma natal_payload_log (require_geo : bool) :
  let log := snd (run geocoder local_to_ut (natal_payload p require_geo)) in
  log = []
  \/ (exists q, log = [Called_geocoder q])
  \/ (exists q d t z, log = [Called_geocoder q; Called_local_to_ut d t z])
  \/ (exists d t z, log = [Called_local_to_ut d t z]).
Proof.
  payload_cases_with geocoder local_to_ut; eauto 10.
Qed.
End Payloads.

(** X13.  [natal_payload] answers with either a basis and no error, or no
    basis and one of its three errors (missing fields, geocoding failed,
    time conversion failed with the text of the exception), never both and
    never neither; it calls the geocoder at most once, the time conversion
    at most once, and the geocoder first. *)
Theorem natal_payload_outcomes
    (UT : Type) (geocoder : string -> option (Q * Q))
    (local_to_ut : string -> string -> string -> string + Q * UT)
    (p : Payload.t) (require_geo : bool) :
  let res := fst (run geocoder local_to_ut (natal_payload p require_geo)) in
  let log := snd (run geocoder local_to_ut (natal_payload p require_geo)) in
  ((exists basis, res = (Some basis, None))
   \/ (exists err, res = (None, Some err)
         /\ (err = MISSING_FIELDS \/ err = GEOCODE_FAILED
             \/ exists e, err = TIME_FAILED e)))
  /\ (log = []
      \/ (exists q, log = [Called_geocoder q])
      \/ (exists q d t z, log = [Called_geocoder q; Called_local_to_ut d t z])
      \/ (exists d t z, log = [Called_local_to_ut d t z])).
Proof.
  split; [apply natal_payload_answer | apply natal_payload_log].
Qed.

Section Geocoding.
Variable UT : Type.
Variable geocoder : string -> option (Q * Q).
Variable local_to_ut : string -> string -> string -> string + Q * UT.
Variable p : Payload.t.

Lemma no_geocoding (require_geo : bool) :
  (exists la lo, Payload.lat p = Some la /\ Payload.lon p = Some lo)
  \/ require_geo = false ->
  (forall q,
      ~ In (Called_geocoder q)
          (snd (run geocoder local_to_ut (natal_payload p require_geo))))
  /\ (forall basis,
         fst (fst (run geocoder local_to_ut (natal_payload p require_geo)))
         = Some basis ->
         Basis.lat basis = Payload.lat p /\ Basis.lon basis = Payload.lon p).
Proof.
  intros Hc. payload_cases_with geocoder local_to_ut;
    try (exfalso;
         match goal with
         | H : _ && require_geo = true |- _ =>
             destruct Hc as [(la & lo & Hla & Hlo) | ->];
             [rewrite Hla, Hlo in H | rewrite andb_false_r in H];
             discriminate H
         end);
    (split;
     [intros place Hin; cbn in Hin; intuition discriminate
     |intros basis Hb; cbn in Hb; try discriminate Hb;
      injection Hb as <-; split; reflexivity]).
Qed.

Lemma geocoding :
  truthy (Payload.date p) = true -> truthy (Payload.time p) = true ->
  nonempty (strip (or_empty (Payload.timezone p))) = true ->
  Payload.lat p = None \/ Payload.lon p = None ->
  let city := strip (or_empty (Payload.city p)) in
  let country := strip (or_empty (Payload.country p)) in
  let q := if nonempty country then (city ++ ", " ++ country)%string else city in
  (geocoder q = None ->
   run geocoder local_to_ut (natal_payload p true)
   = ((None, Some GEOCODE_FAILED), [Called_geocoder q]))
  /\ (forall x y,
         geocoder q = Some (x, y) ->
         snd (run geocoder local_to_ut (natal_payload p true))
         = [Called_geocoder q;
            Called_local_to_ut (or_empty (Payload.date p))
              (or_empty (Payload.time p))
              (strip (or_empty (Payload.timezone p)))]
         /\ forall basis,
              fst (fst (run geocoder local_to_ut (natal_payload p true)))
              = Some basis ->
              Basis.lat basis = Some x /\ Basis.lon basis = Some y).
Proof.
  intros Hdate Htime Htz Hmissing city country q.
  assert (Hgeo : (match Payload.lat p, Payload.lon p with
                  | Some _, Some _ => false
                  | _, _ => true
                  end) && true = true).
  { destruct Hmissing as [-> | ->]; [reflexivity|].
    destruct (Payload.lat p); reflexivity. }
  unfold natal_payload, geocode, convert_time.
  rewrite Hdate, Htime, Htz, Hgeo. cbn [andb negb bind run].
  fold city country q. split.
  - intros ->. reflexivity.
  - intros x y ->. cbn [bind run].
    destruct (local_to_ut (or_empty (Payload.date p))
                (or_empty (Payload.time p))
                (strip (or_empty (Payload.timezone p)))) as [e|[jd ut]];
      cbn [fst snd].
    + split; [reflexivity|]. discriminate.
    + split; [reflexivity|]. intros basis [= <-]. split; reflexivity.
Qed.
End Geocoding.

(** X14.  When the payload gives both coordinates, or geocoding is not
    required, [natal_payload] never calls the geocoder, and a returned
    basis carries the coordinates of the payload unchanged. *)
Theorem natal_payload_keeps_coordinates
    (UT : Type) (geocoder : string -> option (Q * Q))
    (local_to_ut : string -> string -> string -> string + Q * UT)
    (p : Payload.t) (require_geo : bool) :
  (exists la lo, Payload.lat p = Some la /\ Payload.lon p = Some lo)
  \/ require_geo = false ->
  (forall q,
      ~ In (Called_geocoder q)
          (snd (run geocoder local_to_ut (natal_payload p require_geo))))
  /\ (forall basis,
         fst (fst (run geocoder local_to_ut (natal_payload p require_geo)))
         = Some basis ->
         Basis.lat basis = Payload.lat p /\ Basis.lon basis = Payload.lon p).
Proof. apply no_geocoding. Qed.

Lemma natal_payload_keeps_coordinates_witness :
  ~ In (Called_geocoder "anywhere")
      (snd (run Fixture.geocoder Fixture.local_to_ut
              (natal_payload Fixture.payload true))).
Proof.
  apply (proj1 (natal_payload_keeps_coordinates string Fixture.geocoder
                  Fixture.local_to_ut Fixture.payload true
                  (or_introl (ex_intro _ 59.9 (ex_intro _ 10.7
                                (conj eq_refl eq_refl)))))).
Defined.

(** X15.  With the three fields present and a coordinate missing,
    [natal_payload] (geocoding required) asks the geocoder once, for the
    stripped city, followed by a comma and the stripped country when there
    is one.  An unresolved place ends the call with the geocoding error
    before any time conversion; a resolved place supplies both coordinates
    of the basis, also when the payload gave one of them. *)
Theorem natal_payload_geocodes
    (UT : Type) (geocoder : string -> option (Q * Q))
    (local_to_ut : string -> string -> string -> string + Q * UT)
    (p : Payload.t) :
  truthy (Payload.date p) = true -> truthy (Payload.time p) = true ->
  nonempty (strip (or_empty (Payload.timezone p))) = true ->
  Payload.lat p = None \/ Payload.lon p = None ->
  let city := strip (or_empty (Payload.city p)) in
  let country := strip (or_empty (Payload.country p)) in
  let q := if nonempty country then (city ++ ", " ++ country)%string else city in
  (geocoder q = None ->
   run geocoder local_to_ut (natal_payload p true)
   = ((None, Some GEOCODE_FAILED), [Called_geocoder q]))
  /\ (forall x y,
         geocoder q = Some (x, y) ->
         snd (run geocoder local_to_ut (natal_payload p true))
         = [Called_geocoder q;
            Called_local_to_ut (or_empty (Payload.date p))
              (or_empty (Payload.time p))
              (strip (or_empty (Payload.timezone p)))]
         /\ forall basis,
              fst (fst (run geocoder local_to_ut (natal_payload p true)))
              = Some basis ->
              Basis.lat basis = Some x /\ Basis.lon basis = Some y).
Proof. apply geocoding. Qed.

Lemma natal_payload_geocodes_witness :
  snd (run (fun _ => Some (59.9, 10.7)) (fun _ _ _ => inr (2451545, tt))
         (natal_payload half_located_payload true))
  = [Called_geocoder "Oslo, Norway";
     Called_local_to_ut "2000-01-01" "12:00" "Europe/Oslo"].
Proof.
  exact (proj1 (proj2 (natal_payload_geocodes unit
                         (fun _ => Some (59.9, 10.7))
                         (fun _ _ _ => inr (2451545, tt))
                         half_located_payload
                         eq_refl eq_refl eq_refl (or_intror eq_refl))
                 59.9 10.7 eq_refl)).
Defined.

(** X16.  [natal_payload] returns a basis only when the date, the time
    and the stripped timezone are all non-empty and the time conversion of
    exactly these three succeeded; the basis carries the stripped timezone
    and the converted moment. *)
Theorem natal_payload_basis_content
    (UT : Type) (geocoder : string -> option (Q * Q))
    (local_to_ut : string -> string -> string -> string + Q * UT)
    (p : Payload.t) (require_geo : bool) (basis : Basis.t UT) :
  fst (fst (run geocoder local_to_ut (natal_payload p require_geo)))
  = Some basis ->
  truthy (Payload.date p) = true /\ truthy (Payload.time p) = true
  /\ nonempty (Basis.tz basis) = true
  /\ Basis.tz basis = strip (or_empty (Payload.timezone p))
  /\ local_to_ut (or_empty (Payload.date p)) (or_empty (Payload.time p))
       (Basis.tz basis)
     = inr (Basis.jd_ut basis, Basis.ut_dt basis).
Proof. apply natal_payload_basis. Qed.

Lemma natal_payload_basis_content_witness :
  exists basis,
    fst (fst (run (fun _ => Some (59.9, 10.7)) (fun _ _ _ => inr (2451545, tt))
                (natal_payload half_located_payload true))) = Some basis
    /\ Basis.tz basis = "Europe/Oslo"%string.
Proof.
  eexists. split; [reflexivity|].
  exact (proj1 (proj2 (proj2 (proj2
           (natal_payload_basis_content unit (fun _ => Some (59.9, 10.7))
              (fun _ _ _ => inr (2451545, tt)) half_located_payload true
              _ eq_refl))))).
Defined.

(** ** Planet positions *)

Lemma round_le_integer (x : Q) (n : nat) (m : Z) :
  x <= inject_Z m -> Py.round x n <= inject_Z m.
Proof.
  intros Hx. pose proof (pow10_pos n) as Hs.
  assert (Hm : inject_Z m
               == inject_Z (m * 10 ^ Z.of_nat n) / inject_Z (10 ^ Z.of_nat n)).
  { rewrite inject_Z_mult. field. lra. }
  rewrite Hm. apply round_le_multiple. rewrite <- Hm. exact Hx.
Qed.

(** A rounded normalised angle lies in [[0, 360]]: 360 itself included. *)
Lemma rounded_angle_bounds (d : Q) (n : nat) :
  0 <= Py.round (norm360 d) n /\ Py.round (norm360 d) n <= 360.
Proof.
  pose proof (norm360_range d) as [Hlo Hhi]. split.
  - apply round_nonneg. exact Hlo.
  - apply (round_le_integer _ n 360). change (inject_Z 360) with 360. lra.
Qed.

Lemma rounded_degree_bounds (lon : Q) (n : nat) :
  0 <= Py.round (snd (sign_name lon)) n /\ Py.round (snd (sign_name lon)) n <= 30.
Proof.
  pose proof (fmod_range 30 ltac:(lra) lon) as [Hlo Hhi].
  unfold sign_name. cbn [snd]. split.
  - apply round_nonneg. exact Hlo.
  - apply (round_le_integer _ n 30). change (inject_Z 30) with 30. lra.
Qed.

Lemma planet_positions_names (calc_ut : Q -> body -> Q * Q * Q * Q)
    (jd_ut orb : Q) :
  map Planet.name (planet_positions calc_ut jd_ut orb) = map fst PLANETS.
Proof.
  unfold planet_positions. rewrite map_map. apply map_ext.
  intros [name pid]. destruct (calc_ut jd_ut pid) as [[[lon latp] dist] speed].
  destruct (sign_name lon). reflexivity.
Qed.

Lemma planet_positions_entry (calc_ut : Q -> body -> Q * Q * Q * Q)
    (jd_ut orb : Q) (pl : Planet.t) :
  In pl (planet_positions calc_ut jd_ut orb) ->
  exists name pid lon latp dist,
    In (name, pid) PLANETS
    /\ calc_ut jd_ut pid = (lon, latp, dist, Planet.speed pl)
    /\ Planet.name pl = name
    /\ Planet.lon pl = Py.round (norm360 lon) 6
    /\ Planet.sign pl = fst (sign_name lon)
    /\ Planet.deg_in_sign pl = Py.round (snd (sign_name lon)) 2
    /\ Planet.house pl = None.
Proof.
  unfold planet_positions. rewrite in_map_iff.
  intros ([name pid] & Hpl & Hin).
  destruct (calc_ut jd_ut pid) as [[[lon latp] dist] speed] eqn:Hcalc.
  destruct (sign_name lon) as [sname deg] eqn:Hsign. subst pl.
  exists name, pid, lon, latp, dist.
  cbn [fst snd Planet.name Planet.lon Planet.sign Planet.deg_in_sign
       Planet.house Planet.speed].
  rewrite Hsign. cbn [fst snd]. auto 10.
Qed.

(** X17.  [planet_positions] lists the ten bodies, Sun to Pluto, in that
    order, whatever the ephemeris answers; every entry has a longitude in
    [[0, 360]], a sign of the zodiac, a degree within the sign in
    [[0, 30]], the speed the ephemeris gave, and no house yet.  Because the
    longitude is rounded after it is normalised, the upper ends are
    reached: a raw longitude of 359.9999999 is reported as longitude 360,
    30 degrees into Pisces. *)
Theorem planet_positions_shape
    (calc_ut : Q -> body -> Q * Q * Q * Q) (jd_ut orb : Q) :
  map Planet.name (planet_positions calc_ut jd_ut orb)
  = ["Sun"; "Moon"; "Mercury"; "Venus"; "Mars"; "Jupiter"; "Saturn";
     "Uranus"; "Neptune"; "Pluto"]%string
  /\ (forall pl,
         In pl (planet_positions calc_ut jd_ut orb) ->
         (0 <= Planet.lon pl /\ Planet.lon pl <= 360)
         /\ (0 <= Planet.deg_in_sign pl /\ Planet.deg_in_sign pl <= 30)
         /\ In (Planet.sign pl) SIGNS
         /\ Planet.house pl = None
         /\ exists pid lon latp dist,
              In (Planet.name pl, pid) PLANETS
              /\ calc_ut jd_ut pid = (lon, latp, dist, Planet.speed pl))
  /\ (forall pl,
         In pl (planet_positions
                  (fun _ _ => (359.9999999, 0, 1, 1)) jd_ut orb) ->
         Planet.lon pl == 360 /\ Planet.sign pl = "Pisces"%string
         /\ Planet.deg_in_sign pl == 30).
Proof.
  split; [apply planet_positions_names|]. split.
  - intros pl Hpl.
    destruct (planet_positions_entry calc_ut jd_ut orb pl Hpl)
      as (name & pid & lon & latp & dist & Hin & Hcalc & Hname & Hlon & Hsign
          & Hdeg & Hhouse).
    rewrite Hlon, Hdeg, Hsign.
    split; [apply rounded_angle_bounds|].
    split; [apply rounded_degree_bounds|].
    split; [apply sign_name_in_SIGNS|].
    split; [exact Hhouse|].
    exists pid, lon, latp, dist. rewrite Hname. auto.
  - intros pl Hpl.
    destruct (planet_positions_entry _ jd_ut orb pl Hpl)
      as (name & pid & lon & latp & dist & _ & Hcalc & _ & Hlon & Hsign
          & Hdeg & _).
    injection Hcalc as <- _ _ _. rewrite Hlon, Hsign, Hdeg.
    repeat split; vm_compute; reflexivity.
Qed.

(** ** The natal chart *)

Lemma house_for_in_range (L : Q) (cusps : list Q) (h : nat) :
  house_for L cusps = Some h -> (1 <= h <= 12)%nat.
Proof.
  unfold house_for, house_scan.
  destruct (sentinel_cusps cusps) as [c2|]; [|discriminate].
  pose proof (house_loop_seq (norm360 L) c2 12 0) as Hloop.
  destruct (house_loop (norm360 L) c2 (seq 0 12)) as [h'| |].
  - destruct Hloop as (i & -> & Hi & _). intros [= <-]. lia.
  - intros [= <-]. lia.
  - discriminate.
Qed.

(** The loop that sets the houses changes nothing else, and keeps the
    order of the planets. *)
Lemma assign_houses_spec (cusps : list Q) (planets planets' : list Planet.t) :
  assign_houses cusps planets = Some planets' ->
  Forall2 (fun pl pl' =>
             exists h, house_for (Planet.lon pl) cusps = Some h
                       /\ pl' = Planet.set_house pl h)
    planets planets'.
Proof.
  revert planets'. induction planets as [|pl rest IH]; intros planets'.
  - intros [= <-]. constructor.
  - cbn [assign_houses].
    destruct (house_for (Planet.lon pl) cusps) as [h|] eqn:Hh; [|discriminate].
    destruct (assign_houses cusps rest) as [rest'|]; [|discriminate].
    intros [= <-]. constructor; [exists h; auto | apply IH; reflexivity].
Qed.

Lemma houses_out_nums (i : nat) (cusps : list Q) :
  map Cusp.num (houses_out i cusps) = seq i (List.length cusps).
Proof.
  revert i. induction cusps as [|cusp rest IH]; intros i; [reflexivity|].
  cbn [houses_out]. destruct (sign_name cusp) as [sname deg].
  cbn [map List.length seq Cusp.num]. rewrite IH. reflexivity.
Qed.

Lemma houses_out_entry (i : nat) (cusps : list Q) (c : Cusp.t) :
  In c (houses_out i cusps) ->
  exists cusp, In cusp cusps
               /\ Cusp.lon c = Py.round (norm360 cusp) 6
               /\ Cusp.sign c = fst (sign_name cusp)
               /\ Cusp.deg_in_sign c = Py.round (snd (sign_name cusp)) 2.
Proof.
  revert i. induction cusps as [|cusp rest IH]; intros i; [intros []|].
  cbn [houses_out]. destruct (sign_name cusp) as [sname deg] eqn:Hsign.
  intros [<- | Hin].
  - exists cusp. rewrite Hsign. cbn. auto.
  - destruct (IH (S i) Hin) as (cusp' & Hc & Hrest). exists cusp'.
    split; [right; exact Hc | exact Hrest].
Qed.

Section Charts.
Variable UT : Type.
Variable strftime : UT -> string.
Variable calc_ut : Q -> body -> Q * Q * Q * Q.
Variable houses : Q -> Q -> Q -> list Q * list Q.

(** What a chart is made of. *)
Lemma natal_chart_parts (basis : Basis.t UT) (chart : Chart.t) :
  natal_chart UT strftime calc_ut houses basis = Some chart ->
  exists lat lon cusps ascv mcv,
    Basis.lat basis = Some lat /\ Basis.lon basis = Some lon
    /\ houses_placidus houses (Basis.jd_ut basis) lat lon
       = Some (cusps, ascv, mcv)
    /\ assign_houses cusps
         (planet_positions calc_ut (Basis.jd_ut basis) NATAL_ORB)
       = Some (Chart.planets chart)
    /\ Chart.lat chart = lat /\ Chart.lon chart = lon
    /\ Chart.timezone chart = Basis.tz basis
    /\ Chart.ut chart = strftime (Basis.ut_dt basis)
    /\ Chart.jd_ut chart = Basis.jd_ut basis
    /\ Chart.ascendant chart = Py.round (norm360 ascv) 6
    /\ Chart.mc chart = Py.round (norm360 mcv) 6
    /\ Chart.houses chart = houses_out 1 cusps
    /\ Chart.aspects chart = natal_aspects (Chart.planets chart).
Proof.
  unfold natal_chart.
  destruct (Basis.lat basis) as [lat|]; [|discriminate].
  destruct (Basis.lon basis) as [lon|]; [|discriminate].
  destruct (houses_placidus houses (Basis.jd_ut basis) lat lon)
    as [[[cusps ascv] mcv]|] eqn:Hpl; [|discriminate].
  destruct (assign_houses cusps _) as [planets|] eqn:Hassign; [|discriminate].
  intros [= <-]. exists lat, lon, cusps, ascv, mcv.
  cbn [Chart.lat Chart.lon Chart.timezone Chart.ut Chart.jd_ut
       Chart.ascendant Chart.mc Chart.planets Chart.houses Chart.aspects].
  repeat split; assumption.
Qed.

Lemma houses_placidus_cusps (jd_ut lat lon : Q) (cusps : list Q) (ascv mcv : Q) :
  houses_placidus houses jd_ut lat lon = Some (cusps, ascv, mcv) ->
  cusps = firstn 12 (fst (houses jd_ut lat lon))
  /\ nth_error (snd (houses jd_ut lat lon)) 0 = Some ascv
  /\ nth_error (snd (houses jd_ut lat lon)) 1 = Some mcv.
Proof.
  unfold houses_placidus. destruct (houses jd_ut lat lon) as [cs ascmc].
  cbn [fst snd].
  destruct (nth_error ascmc 0) as [x|]; [|discriminate].
  destruct (nth_error ascmc 1) as [y|]; [|discriminate].
  intros [= <- <- <-]. auto.
Qed.
End Charts.

(** X18.  Every chart that [natal] builds lists the ten bodies in order,
    each with a house between 1 and 12 and a longitude in [[0, 360]]; its
    houses are numbered 1, 2, ... in
    the order of the cusps, at most twelve of them, each with a longitude
    in [[0, 360]]; ascendant and midheaven lie in [[0, 360]]; and the
    resolved part repeats the coordinates, timezone and Julian Day of the
    basis. *)
Theorem natal_chart_shape
    (UT : Type) (strftime : UT -> string)
    (calc_ut : Q -> body -> Q * Q * Q * Q)
    (houses : Q -> Q -> Q -> list Q * list Q)
    (basis : Basis.t UT) (chart : Chart.t) :
  natal_chart UT strftime calc_ut houses basis = Some chart ->
  map Planet.name (Chart.planets chart) = map fst PLANETS
  /\ (forall pl, In pl (Chart.planets chart) ->
        (exists h, Planet.house pl = Some h /\ (1 <= h <= 12)%nat)
        /\ 0 <= Planet.lon pl /\ Planet.lon pl <= 360)
  /\ map Cusp.num (Chart.houses chart)
     = seq 1 (List.length (Chart.houses chart))
  /\ (List.length (Chart.houses chart) <= 12)%nat
  /\ (forall c, In c (Chart.houses chart) ->
        0 <= Cusp.lon c /\ Cusp.lon c <= 360)
  /\ (0 <= Chart.ascendant chart /\ Chart.ascendant chart <= 360)
  /\ (0 <= Chart.mc chart /\ Chart.mc chart <= 360)
  /\ Basis.lat basis = Some (Chart.lat chart)
  /\ Basis.lon basis = Some (Chart.lon chart)
  /\ Chart.timezone chart = Basis.tz basis
  /\ Chart.jd_ut chart = Basis.jd_ut basis.
Proof.
  intros Hchart.
  destruct (natal_chart_parts UT strftime calc_ut houses basis chart Hchart)
    as (lat & lon & cusps & ascv & mcv & Hlat & Hlon & Hpl & Hassign & Hclat
        & Hclon & Htz & _ & Hjd & Hasc & Hmc & Hhouses & _).
  pose proof (assign_houses_spec _ _ _ Hassign) as Hall.
  destruct (houses_placidus_cusps houses _ _ _ _ _ _ Hpl) as (Hcusps & _).
  assert (Hlen : List.length (houses_out 1 cusps) = List.length cusps).
  { rewrite <- (length_map Cusp.num), houses_out_nums, length_seq. reflexivity. }
  split; [|split; [|split; [|split; [|split; [|split; [|split]]]]]].
  - rewrite <- (planet_positions_names calc_ut (Basis.jd_ut basis) NATAL_ORB).
    clear - Hall. induction Hall as [|pl pl' ps ps' (h & _ & ->) _ IH];
      [reflexivity|]. cbn [map]. rewrite IH. reflexivity.
  - intros pl' Hin.
    assert (Hsrc : exists pl h,
               In pl (planet_positions calc_ut (Basis.jd_ut basis) NATAL_ORB)
               /\ house_for (Planet.lon pl) cusps = Some h
               /\ pl' = Planet.set_house pl h).
    { clear - Hall Hin.
      induction Hall as [|pl pl0 ps ps' (h & Hh & ->) _ IH]; [destruct Hin|].
      destruct Hin as [<- | Hin].
      - exists pl, h. cbn [In]. auto.
      - destruct (IH Hin) as (pl1 & h1 & Hin1 & Hrest). exists pl1, h1.
        cbn [In]. auto. }
    destruct Hsrc as (pl & h & Hpl_in & Hh & ->).
    split; [exists h; split; [reflexivity|exact (house_for_in_range _ _ _ Hh)]|].
    cbn [Planet.set_house Planet.lon].
    destruct (planet_positions_entry calc_ut _ _ pl Hpl_in)
      as (_ & _ & lon0 & _ & _ & _ & _ & _ & -> & _).
    apply rounded_angle_bounds.
  - rewrite Hhouses, Hlen. apply houses_out_nums.
  - rewrite Hhouses, Hlen, Hcusps. apply firstn_le_length.
  - intros c Hc. rewrite Hhouses in Hc.
    destruct (houses_out_entry 1 cusps c Hc) as (cusp & _ & -> & _).
    apply rounded_angle_bounds.
  - rewrite Hasc. apply rounded_angle_bounds.
  - rewrite Hmc. apply rounded_angle_bounds.
  - rewrite Hclat, Hclon. auto.
Qed.

Lemma natal_chart_shape_witness :
  exists chart,
    natal_chart string (fun s => s) Fixture.calc_ut Fixture.houses
      fixture_basis = Some chart
    /\ (List.length (Chart.houses chart) <= 12)%nat.
Proof.
  assert (H : exists chart,
             natal_chart string (fun s => s) Fixture.calc_ut Fixture.houses
               fixture_basis = Some chart)
    by (eexists; vm_compute; reflexivity).
  destruct H as [chart H]. exists chart. split; [exact H|].
  exact (proj1 (proj2 (proj2 (proj2
           (natal_chart_shape string (fun s => s) Fixture.calc_ut
              Fixture.houses fixture_basis chart H))))).
Defined.

(** An aspect is reported for two different entries of the list, the first
    one standing before the second. *)
Lemma natal_aspects_entry (planets : list Planet.t) (asp : Aspect.t) :
  In asp (natal_aspects planets) ->
  exists before pi between pj after,
    planets = before ++ pi :: between ++ pj :: after
    /\ Aspect.a asp = Planet.name pi /\ Aspect.b asp = Planet.name pj
    /\ aspect_between (Planet.lon pi) (Planet.lon pj) NATAL_ORB
       = Some (Aspect.type asp, Aspect.orb asp).
Proof.
  induction planets as [|pi rest IH]; [intros []|].
  cbn [natal_aspects]. intros Hin. apply in_app_or in Hin as [Hin | Hin].
  - apply in_flat_map in Hin as (pj & Hpj & Hasp).
    apply in_split in Hpj as (between & after & ->).
    destruct (aspect_between _ _ _) as [[typ orb]|] eqn:Hm; [|destruct Hasp].
    destruct Hasp as [<- | []].
    exists [], pi, between, pj, after.
    cbn [app Aspect.a Aspect.b Aspect.type Aspect.orb].
    repeat split; try reflexivity. exact Hm.
  - destruct (IH Hin) as (before & pi' & between & pj & after & -> & Hrest).
    exists (pi :: before), pi', between, pj, after.
    split; [reflexivity | exact Hrest].
Qed.

Lemma natal_aspects_count (planets : list Planet.t) :
  (2 * List.length (natal_aspects planets)
   <= List.length planets * (List.length planets - 1))%nat.
Proof.
  induction planets as [|pi rest IH]; [cbn; lia|].
  cbn [natal_aspects]. rewrite length_app.
  assert (Hrow : (List.length
                    (flat_map
                       (fun pj =>
                          match aspect_between (Planet.lon pi) (Planet.lon pj)
                                  NATAL_ORB with
                          | Some (typ, orb) =>
                              [{| Aspect.a := Planet.name pi;
                                  Aspect.b := Planet.name pj;
                                  Aspect.type := typ; Aspect.orb := orb |}]
                          | None => []
                          end) rest)
                  <= List.length rest)%nat).
  { clear. induction rest as [|pj rest IH]; [cbn; lia|].
    cbn [flat_map]. rewrite length_app. cbn [List.length].
    destruct (aspect_between _ _ _) as [[typ orb]|]; cbn [List.length]; lia. }
  cbn [List.length]. nia.
Qed.

(** X19.  The natal aspects: every reported aspect joins two different
    entries of the planet list, the earlier one named first; its kind is
    one of the five and its orb lies between 0 and [NATAL_ORB]; no pair is
    reported twice over, so [n] planets give at most [n (n - 1) / 2]
    aspects. *)
Theorem natal_aspects_bounds (planets : list Planet.t) :
  (forall asp,
      In asp (natal_aspects planets) ->
      (exists before pi between pj after,
          planets = before ++ pi :: between ++ pj :: after
          /\ Aspect.a asp = Planet.name pi /\ Aspect.b asp = Planet.name pj
          /\ aspect_between (Planet.lon pi) (Planet.lon pj) NATAL_ORB
             = Some (Aspect.type asp, Aspect.orb asp))
      /\ In (Aspect.type asp)
           ["conjunction"; "sextile"; "square"; "trine"; "opposition"]%string
      /\ 0 <= Aspect.orb asp /\ Aspect.orb asp <= NATAL_ORB)
  /\ (2 * List.length (natal_aspects planets)
      <= List.length planets * (List.length planets - 1))%nat.
Proof.
  split; [|apply natal_aspects_count].
  intros asp Hin.
  destruct (natal_aspects_entry planets asp Hin)
    as (before & pi & between & pj & after & Hsplit & Ha & Hb & Hm).
  split; [exists before, pi, between, pj, after; auto|].
  unfold aspect_between in Hm.
  destruct (aspect_scan_some _ _ _ _ _ Hm) as (ang & Hang & Hle & Horb).
  rewrite Horb. split; [|split].
  - change (In (snd (ang, Aspect.type asp)) (map snd ASPECTS)).
    apply in_map. exact Hang.
  - apply round_nonneg. apply Qabs_nonneg.
  - apply (round_le_integer _ 2 6). exact Hle.
Qed.

(** ** Order of the gates *)

(** X20.  [natal] runs the rate limit first and always keeps its record:
    a request refused by the limit is answered 429 whatever its key; an
    admitted request with a wrong or missing key is answered 401 and still
    counts against the client's quota; an admitted request with a valid
    key and a body that is not JSON is answered 400 "Invalid JSON". *)
Theorem natal_gate_order
    (UT : Type) (strftime : UT -> string)
    (calc_ut : Q -> body -> Q * Q * Q * Q)
    (houses : Q -> Q -> Q -> list Q * list Q)
    (geocoder : string -> option (Q * Q))
    (local_to_ut : string -> string -> string -> string + Q * UT)
    (ASTRO_KEY : option string)
    (rate : string -> list Q) (now : Q) (req : Request.t) :
  let ip := if truthy (Request.remote_addr req)
            then or_empty (Request.remote_addr req) else "anon"%string in
  let result := natal UT strftime calc_ut houses geocoder local_to_ut
                  ASTRO_KEY rate now req in
  fst result = fst (check_rate rate now ip)
  /\ (snd (check_rate rate now ip) = false -> snd result = Rate_limited)
  /\ (snd (check_rate rate now ip) = true ->
      require_key ASTRO_KEY req = false ->
      snd result = Unauthorized
      /\ fst result ip = drop_expired now (rate ip) ++ [now])
  /\ (snd (check_rate rate now ip) = true ->
      require_key ASTRO_KEY req = true -> Request.json req = None ->
      snd result = Bad_request "Invalid JSON").
Proof.
  intros ip result. unfold result, natal. fold ip.
  assert (Hstore : forall admitted,
             snd (check_rate rate now ip) = admitted ->
             admitted = true ->
             fst (check_rate rate now ip) ip
             = drop_expired now (rate ip) ++ [now]).
  { intros admitted <-. unfold check_rate.
    destruct (RATE_MAX <=? _)%nat; cbn [fst snd]; [discriminate|].
    intros _. rewrite String.eqb_refl. reflexivity. }
  destruct (check_rate rate now ip) as [rate' admitted] eqn:Hcheck.
  cbn [fst snd] in *. destruct admitted; cbn [negb].
  - destruct (require_key ASTRO_KEY req) eqn:Hkey; cbn [negb].
    + destruct (Request.json req) as [p|] eqn:Hjson.
      * destruct (fst (run geocoder local_to_ut (natal_payload p true)))
          as [[basis|] [err|]]; cbn [fst snd];
          try destruct (natal_chart _ _ _ _ basis); cbn [fst snd];
          repeat split; intros; discriminate.
      * cbn [fst snd]. repeat split; intros; try discriminate; reflexivity.
    + cbn [fst snd]. repeat split; intros; try discriminate.
      exact (Hstore true eq_refl eq_refl).
  - cbn [fst snd]. repeat split; intros; discriminate.
Qed.

Lemma natal_gate_order_witness :
  snd (natal string (fun s => s) Fixture.calc_ut Fixture.houses
         Fixture.geocoder Fixture.local_to_ut (Some "s3cret"%string)
         Fixture.no_requests 7 intruder_request) = Unauthorized
  /\ fst (natal string (fun s => s) Fixture.calc_ut Fixture.houses
            Fixture.geocoder Fixture.local_to_ut (Some "s3cret"%string)
            Fixture.no_requests 7 intruder_request) "anon"%string = [7].
Proof.
  exact (proj1 (proj2 (proj2
           (natal_gate_order string (fun s => s) Fixture.calc_ut
              Fixture.houses Fixture.geocoder Fixture.local_to_ut
              (Some "s3cret"%string) Fixture.no_requests 7 intruder_request)))
           eq_refl eq_refl).
Defined.

(** ** The transit comparator *)

Lemma aspect_between_self (a orb : Q) :
  0 <= orb -> aspect_between a a orb = Some ("conjunction"%string, 0).
Proof.
  intros Horb. unfold aspect_between.
  rewrite (aspect_scan_Proper _ 0 orb ASPECTS (separation_self a)).
  unfold aspect_scan, ASPECTS.
  case_test; [reflexivity|]. exfalso. revert Hle. apply Qle_not_lt. exact Horb.
Qed.

Lemma approx_days_self (a speed : Q) : approx_days a a speed = 0.
Proof.
  unfold approx_days.
  assert (Hzero : delta a a / (rel_speed speed * 24) == 0).
  { rewrite delta_separation, separation_self. unfold Qdiv.
    apply Qmult_0_l. }
  rewrite (round_Proper _ _ Hzero 1%nat 1%nat eq_refl). reflexivity.
Qed.

(** X21.  Compared with itself, a planet list gives for every planet the
    hit of that planet with itself: a conjunction with orb 0 and 0 days to
    exact.  So a transit moment equal to the natal moment reports every
    body conjunct to its natal position. *)
Theorem transit_hits_self (planets : list Planet.t) (pl : Planet.t) :
  In pl planets ->
  In {| Hit.transiting := Planet.name pl; Hit.natal := Planet.name pl;
        Hit.type := "conjunction"; Hit.orb := 0;
        Hit.approx_days_to_exact := 0 |}
     (transit_hits planets planets).
Proof.
  intros Hin. unfold transit_hits. apply in_flat_map.
  exists pl. split; [exact Hin|].
  unfold hits_of. apply in_flat_map. exists pl. split; [exact Hin|].
  rewrite (aspect_between_self (Planet.lon pl) TRANSIT_ORB) by discriminate.
  rewrite approx_days_self. left. reflexivity.
Qed.

Lemma transit_hits_self_witness :
  In {| Hit.transiting := "Mars"; Hit.natal := "Mars";
        Hit.type := "conjunction"; Hit.orb := 0;
        Hit.approx_days_to_exact := 0 |}%string
     (transit_hits [natal_point; slow_transit] [natal_point; slow_transit]).
Proof.
  apply (transit_hits_self [natal_point; slow_transit] slow_transit).
  right. left. reflexivity.
Defined.

Lemma transit_hits_count (t_planets natal_planets : list Planet.t) :
  (List.length (transit_hits t_planets natal_planets)
   <= List.length t_planets * List.length natal_planets)%nat.
Proof.
  unfold transit_hits.
  assert (Hrow : forall t, (List.length (hits_of t natal_planets)
                            <= List.length natal_planets)%nat).
  { intros t. unfold hits_of.
    induction natal_planets as [|n rest IH]; [cbn; lia|].
    cbn [flat_map]. rewrite length_app. cbn [List.length].
    destruct (aspect_between _ _ _) as [[typ orb]|]; cbn [List.length]; lia. }
  induction t_planets as [|t rest IH]; [cbn; lia|].
  cbn [flat_map]. rewrite length_app. cbn [List.length].
  specialize (Hrow t). nia.
Qed.

(** X22.  The hits of the transit comparator: every hit pairs a transiting
    planet with a natal planet of the two lists, its kind is one of the
    five, its orb lies between 0 and [TRANSIT_ORB], its days-to-exact
    estimate is not negative, and each pair gives at most one hit. *)
Theorem transit_hits_bounds (t_planets natal_planets : list Planet.t) :
  (forall h,
      In h (transit_hits t_planets natal_planets) ->
      (exists t n, In t t_planets /\ In n natal_planets
                   /\ Hit.transiting h = Planet.name t
                   /\ Hit.natal h = Planet.name n)
      /\ In (Hit.type h)
           ["conjunction"; "sextile"; "square"; "trine"; "opposition"]%string
      /\ 0 <= Hit.orb h /\ Hit.orb h <= TRANSIT_ORB
      /\ 0 <= Hit.approx_days_to_exact h)
  /\ (List.length (transit_hits t_planets natal_planets)
      <= List.length t_planets * List.length natal_planets)%nat.
Proof.
  split; [|apply transit_hits_count].
  intros h Hh. unfold transit_hits in Hh.
  apply in_flat_map in Hh as (t & Ht & Hh).
  assert (Hnames : exists n, In n natal_planets
                             /\ Hit.transiting h = Planet.name t
                             /\ Hit.natal h = Planet.name n).
  { unfold hits_of in Hh. apply in_flat_map in Hh as (n & Hn & Hh).
    exists n. split; [exact Hn|].
    destruct (aspect_between _ _ _) as [[typ orb]|]; [|destruct Hh].
    destruct Hh as [<- | []]. cbn. auto. }
  destruct Hnames as (n0 & Hn0 & Htn & Hnn).
  destruct (hits_of_inv t natal_planets h Hh) as (n & Hn & Hm & Hdays).
  split; [exists t, n0; auto|].
  unfold aspect_between in Hm.
  destruct (aspect_scan_some _ _ _ _ _ Hm) as (ang & Hang & Hle & Horb).
  rewrite Horb, Hdays. split; [|split; [|split]].
  - change (In (snd (ang, Hit.type h)) (map snd ASPECTS)).
    apply in_map. exact Hang.
  - apply round_nonneg. apply Qabs_nonneg.
  - apply (round_le_integer _ 2 3). exact Hle.
  - apply approx_days_nonneg.
Qed.

(** ** The [/transits] endpoint *)

Lemma or_else_truthy (x y : option string) :
  truthy y = true -> truthy (or_else x y) = true.
Proof.
  intros Hy. unfold or_else. destruct (truthy x) eqn:Hx; assumption.
Qed.

Section TransitEndpoint.
Variable UT : Type.
Variable strftime : UT -> string.
Variable calc_ut : Q -> body -> Q * Q * Q * Q.
Variable geocoder : string -> option (Q * Q).
Variable local_to_ut : string -> string -> string -> string + Q * UT.
Variable ASTRO_KEY : option string.
Variable now_local : string -> option (string * string).

(** After a successful [natal_payload] the transit moment is never
    incomplete: the natal date, time and timezone stand in for missing
    [t_] keys. *)
Lemma transit_moment_complete (p : TransitPayload.t) (basis : Basis.t UT) :
  fst (fst (run geocoder local_to_ut
              (natal_payload (TransitPayload.natal p) true))) = Some basis ->
  transit_moment now_local p (Basis.tz basis) <> Moment_missing.
Proof.
  intros Hbasis.
  destruct (natal_payload_basis UT geocoder local_to_ut _ true basis Hbasis)
    as (Hdate & Htime & Htz & _).
  unfold transit_moment. destruct (TransitPayload.now p).
  - destruct (now_local (Basis.tz basis)) as [[date time_s]|]; discriminate.
  - rewrite (or_else_truthy (TransitPayload.t_date p) _ Hdate).
    rewrite (or_else_truthy (TransitPayload.t_time p) _ Htime).
    assert (Hzone : nonempty
                      (or_empty (or_else (TransitPayload.t_timezone p)
                                   (Some (Basis.tz basis)))) = true).
    { apply (or_else_truthy (TransitPayload.t_timezone p)
               (Some (Basis.tz basis))). exact Htz. }
    rewrite Hzone. discriminate.
Qed.

Lemma transit_report_not_bad_request
    (p : TransitPayload.t) (date time_s tz_name err : string) :
  transit_report UT strftime calc_ut local_to_ut p date time_s tz_name
  <> Transit_bad_request err.
Proof.
  unfold transit_report.
  destruct (local_to_ut date time_s tz_name) as [e|[jd_ut ut_dt]];
    [discriminate|].
  destruct (local_to_ut _ _ _) as [e|[n_jd ut']]; discriminate.
Qed.

(** A report, field by field. *)
Lemma transit_report_ok
    (p : TransitPayload.t) (date time_s tz_name : string) (report : Report.t) :
  transit_report UT strftime calc_ut local_to_ut p date time_s tz_name
  = Transit_ok report ->
  exists ut_dt n_jd,
    local_to_ut date time_s tz_name = inr (Report.jd_ut report, ut_dt)
    /\ Report.timezone report = tz_name
    /\ Report.ut report = strftime ut_dt
    /\ Report.transiting_planets report
       = planet_positions calc_ut (Report.jd_ut report) TRANSIT_ORB
    /\ Report.natal_planets report = planet_positions calc_ut n_jd NATAL_ORB
    /\ Report.hits report
       = transit_hits (Report.transiting_planets report)
           (Report.natal_planets report).
Proof.
  unfold transit_report.
  destruct (local_to_ut date time_s tz_name) as [e|[jd_ut ut_dt]];
    [discriminate|].
  destruct (local_to_ut _ _ _) as [e|[n_jd ut']]; [discriminate|].
  intros Hok. exists ut_dt, n_jd.
  assert (Hrep : forall A (f : Report.t -> A) r r',
             Transit_ok r' = Transit_ok r -> f r = f r').
  { intros A f r r' [= ->]. reflexivity. }
  rewrite (Hrep _ Report.jd_ut _ _ Hok), (Hrep _ Report.timezone _ _ Hok),
    (Hrep _ Report.ut _ _ Hok), (Hrep _ Report.transiting_planets _ _ Hok),
    (Hrep _ Report.natal_planets _ _ Hok), (Hrep _ Report.hits _ _ Hok).
  cbn [Report.jd_ut Report.timezone Report.ut Report.transiting_planets
       Report.natal_planets Report.hits].
  repeat split; exact eq_refl.
Qed.

(** What [transits] can answer. *)
Lemma transits_answer (rate : string -> list Q) (now : Q)
    (req : TransitRequest.t) :
  let answer := snd (transits UT strftime calc_ut geocoder local_to_ut
                       ASTRO_KEY now_local rate now req) in
  answer = Transit_rate_limited \/ answer = Transit_unauthorized
  \/ answer = Transit_internal_error
  \/ (exists err, answer = Transit_bad_request err
        /\ (err = "Invalid JSON"%string \/ err = MISSING_FIELDS
            \/ err = GEOCODE_FAILED \/ exists e, err = TIME_FAILED e))
  \/ (exists p date time_s tz_name,
        TransitRequest.json req = Some p
        /\ answer = transit_report UT strftime calc_ut local_to_ut p
                      date time_s tz_name).
Proof.
  unfold transits.
  destruct (check_rate _ _ _) as [rate' [|]]; cbn [negb snd]; [|auto].
  destruct (require_key _ _); cbn [negb snd]; [|auto].
  destruct (TransitRequest.json req) as [p|]; cbn [snd];
    [|right; right; right; left; eauto 6].
  pose proof (natal_payload_answer UT geocoder local_to_ut
                (TransitPayload.natal p) true) as Hans.
  pose proof (transit_moment_complete p) as Hmoment.
  destruct (fst (run geocoder local_to_ut
                   (natal_payload (TransitPayload.natal p) true)))
    as [[basis|] [err|]]; cbn [snd].
  - destruct Hans as [(b & [=]) | (err' & [=] & _)].
  - specialize (Hmoment basis eq_refl).
    destruct (transit_moment now_local p (Basis.tz basis))
      as [date time_s tz_name| |]; cbn [snd];
      [|contradiction|auto].
    right; right; right; right. exists p, date, time_s, tz_name. auto.
  - destruct Hans as [(b & [=]) | (err' & [= <-] & Hkind)].
    right; right; right; left. exists err. split; [reflexivity|].
    tauto.
  - auto.
Qed.
End TransitEndpoint.

(** X23.  The second validation of [transits], the error
    "t_date/time & t_timezone (or now:true) required", can never be
    reported: once [natal_payload] has accepted the natal date, time and
    timezone, they stand in for every missing [t_] key.  The only errors
    with status 400 are "Invalid JSON" and the three errors of
    [natal_payload]. *)
Theorem transits_errors
    (UT : Type) (strftime : UT -> string)
    (calc_ut : Q -> body -> Q * Q * Q * Q)
    (geocoder : string -> option (Q * Q))
    (local_to_ut : string -> string -> string -> string + Q * UT)
    (ASTRO_KEY : option string)
    (now_local : string -> option (string * string))
    (rate : string -> list Q) (now : Q) (req : TransitRequest.t) (err : string) :
  snd (transits UT strftime calc_ut geocoder local_to_ut ASTRO_KEY now_local
         rate now req) = Transit_bad_request err ->
  (err = "Invalid JSON"%string \/ err = MISSING_FIELDS
   \/ err = GEOCODE_FAILED \/ exists e, err = TIME_FAILED e)
  /\ err <> TRANSIT_TIME_REQUIRED.
Proof.
  intros Herr.
  assert (Hkind : err = "Invalid JSON"%string \/ err = MISSING_FIELDS
                  \/ err = GEOCODE_FAILED \/ exists e, err = TIME_FAILED e).
  { destruct (transits_answer UT strftime calc_ut geocoder local_to_ut
                ASTRO_KEY now_local rate now req)
      as [H | [H | [H | [(err' & H & Hkind) | (p & d & t & z & _ & H)]]]];
      rewrite Herr in H; try discriminate H.
    - injection H as ->. exact Hkind.
    - symmetry in H.
      exact (False_ind _ (transit_report_not_bad_request UT strftime
                            calc_ut local_to_ut p d t z err H)). }
  split; [exact Hkind|].
  destruct Hkind as [-> | [-> | [-> | [e ->]]]]; discriminate.
Qed.

Lemma transits_errors_witness :
  snd (transits string (fun s => s) Fixture.calc_ut Fixture.geocoder
         Fixture.local_to_ut None fixture_clock Fixture.no_requests 0
         undated_transit_request) = Transit_bad_request MISSING_FIELDS
  /\ MISSING_FIELDS <> TRANSIT_TIME_REQUIRED.
Proof.
  assert (H : snd (transits string (fun s => s) Fixture.calc_ut
                     Fixture.geocoder Fixture.local_to_ut None fixture_clock
                     Fixture.no_requests 0 undated_transit_request)
              = Transit_bad_request MISSING_FIELDS)
    by (vm_compute; reflexivity).
  split; [exact H|].
  exact (proj2 (transits_errors string (fun s => s) Fixture.calc_ut
                  Fixture.geocoder Fixture.local_to_ut None fixture_clock
                  Fixture.no_requests 0 undated_transit_request
                  MISSING_FIELDS H)).
Defined.

(** X24.  A successful [transits] response lists the ten bodies twice, in
    order, as transiting and as natal planets; its hits are those of the
    comparator on these two lists, at most one for each of the hundred
    pairs; its Julian Day and UT stamp are the time conversion of a date
    and a time in the reported timezone, and the transiting planets are
    the positions at that Julian Day. *)
Theorem transits_report_shape
    (UT : Type) (strftime : UT -> string)
    (calc_ut : Q -> body -> Q * Q * Q * Q)
    (geocoder : string -> option (Q * Q))
    (local_to_ut : string -> string -> string -> string + Q * UT)
    (ASTRO_KEY : option string)
    (now_local : string -> option (string * string))
    (rate : string -> list Q) (now : Q) (req : TransitRequest.t)
    (report : Report.t) :
  snd (transits UT strftime calc_ut geocoder local_to_ut ASTRO_KEY now_local
         rate now req) = Transit_ok report ->
  map Planet.name (Report.transiting_planets report) = map fst PLANETS
  /\ map Planet.name (Report.natal_planets report) = map fst PLANETS
  /\ Report.hits report
     = transit_hits (Report.transiting_planets report)
         (Report.natal_planets report)
  /\ (List.length (Report.hits report) <= 100)%nat
  /\ exists p date time_s ut_dt,
       TransitRequest.json req = Some p
       /\ local_to_ut date time_s (Report.timezone report)
          = inr (Report.jd_ut report, ut_dt)
       /\ Report.ut report = strftime ut_dt
       /\ Report.transiting_planets report
          = planet_positions calc_ut (Report.jd_ut report) TRANSIT_ORB.
Proof.
  intros Hok.
  destruct (transits_answer UT strftime calc_ut geocoder local_to_ut
              ASTRO_KEY now_local rate now req)
    as [H | [H | [H | [(err' & H & _) | (p & d & t & z & Hjson & H)]]]];
    rewrite Hok in H; try discriminate H.
  symmetry in H.
  destruct (transit_report_ok UT strftime calc_ut local_to_ut p d t z report H)
    as (ut & njd & Hconv & Htz & Hut & Htp & Hnp & Hhits).
  split; [rewrite Htp; apply planet_positions_names|].
  split; [rewrite Hnp; apply planet_positions_names|].
  split; [exact Hhits|]. split.
  - rewrite Hhits.
    pose proof (transit_hits_count (Report.transiting_planets report)
                  (Report.natal_planets report)) as Hcount.
    assert (Hten : forall names : list Planet.t,
               map Planet.name names = map fst PLANETS ->
               List.length names = 10%nat).
    { intros names Hnames. rewrite <- (length_map Planet.name), Hnames.
      reflexivity. }
    rewrite (Hten (Report.transiting_planets report)) in Hcount
      by (rewrite Htp; apply planet_positions_names).
    rewrite (Hten (Report.natal_planets report)) in Hcount
      by (rewrite Hnp; apply planet_positions_names).
    exact Hcount.
  - exists p, d, t, ut. rewrite Htz. auto.
Qed.

Lemma transits_report_shape_witness :
  exists report,
    snd (transits string (fun s => s) Fixture.calc_ut Fixture.geocoder
           Fixture.local_to_ut None fixture_clock Fixture.no_requests 0
           transit_request) = Transit_ok report
    /\ (List.length (Report.hits report) <= 100)%nat.
Proof.
  assert (H : exists report,
             snd (transits string (fun s => s) Fixture.calc_ut
                    Fixture.geocoder Fixture.local_to_ut None fixture_clock
                    Fixture.no_requests 0 transit_request)
             = Transit_ok report)
    by (eexists; vm_compute; reflexivity).
  destruct H as [report H]. exists report. split; [exact H|].
  exact (proj1 (proj2 (proj2 (proj2
           (transits_report_shape string (fun s => s) Fixture.calc_ut
              Fixture.geocoder Fixture.local_to_ut None fixture_clock
              Fixture.no_requests 0 transit_request report H))))).
Defined.

(** ** House cusps from the ephemeris *)

(** X25.  [houses_placidus] keeps the first twelve cusps the ephemeris
    answers (all of them when there are fewer) and takes the ascendant and
    the midheaven from the first two angles; it fails exactly when the
    ephemeris answers fewer than two angles. *)
Theorem houses_placidus_result
    (houses : Q -> Q -> Q -> list Q * list Q) (jd_ut lat lon : Q) :
  (forall cusps ascv mcv,
      houses_placidus houses jd_ut lat lon = Some (cusps, ascv, mcv) ->
      cusps = firstn 12 (fst (houses jd_ut lat lon))
      /\ (List.length cusps <= 12)%nat
      /\ nth_error (snd (houses jd_ut lat lon)) 0 = Some ascv
      /\ nth_error (snd (houses jd_ut lat lon)) 1 = Some mcv)
  /\ (houses_placidus houses jd_ut lat lon = None
      <-> (List.length (snd (houses jd_ut lat lon)) < 2)%nat).
Proof.
  split.
  - intros cusps ascv mcv Hres.
    destruct (houses_placidus_cusps houses _ _ _ _ _ _ Hres) as (Hc & Ha & Hm).
    split; [exact Hc|]. split; [|split; assumption].
    rewrite Hc. apply firstn_le_length.
  - unfold houses_placidus. destruct (houses jd_ut lat lon) as [cs ascmc].
    cbn [snd]. destruct ascmc as [|x [|y rest]]; cbn; split;
      try reflexivity; try discriminate; lia.
Qed.

Lemma houses_placidus_result_witness :
  exists cusps ascv mcv,
    houses_placidus long_houses 2451545 59.9 10.7 = Some (cusps, ascv, mcv)
    /\ (List.length cusps <= 12)%nat.
Proof.
  exists equal_cusps, 10, 280.
  assert (H : houses_placidus long_houses 2451545 59.9 10.7
              = Some (equal_cusps, 10, 280)) by reflexivity.
  split; [exact H|].
  exact (proj1 (proj2 (proj1 (houses_placidus_result long_houses 2451545
                                59.9 10.7) _ _ _ H))).
Defined.

(** ** Location and transits *)

Section TransitLocation.
Variable UT : Type.
Variable strftime : UT -> string.
Variable calc_ut : Q -> body -> Q * Q * Q * Q.
Variable geocoder : string -> option (Q * Q).
Variable local_to_ut : string -> string -> string -> string + Q * UT.
Variable ASTRO_KEY : option string.
Variable now_local : string -> option (string * string).

(** With both coordinates given, what [natal_payload] answers apart from
    the coordinates themselves does not depend on them. *)
Lemma natal_payload_located (p : Payload.t) (lat lon : Q) :
  let res := fst (run geocoder local_to_ut
                    (natal_payload (with_coordinates p lat lon) true)) in
  snd res = snd (fst (run geocoder local_to_ut (natal_payload p false)))
  /\ option_map Basis.tz (fst res)
     = option_map Basis.tz
         (fst (fst (run geocoder local_to_ut (natal_payload p false)))).
Proof.
  unfold natal_payload, with_coordinates, convert_time.
  cbn [Payload.date Payload.time Payload.city Payload.country
       Payload.timezone Payload.lat Payload.lon andb].
  rewrite andb_false_r.
  destruct (negb _); [split; reflexivity|].
  cbn [run].
  destruct (local_to_ut _ _ _) as [e|[jd ut]]; split; reflexivity.
Qed.
(** The part of [transits] that follows [natal_payload] looks only at the
    error and at the timezone of the basis. *)
Lemma transits_after_payload (p p' : TransitPayload.t)
    (res res' : option (Basis.t UT) * option string) :
  snd res = snd res' ->
  option_map Basis.tz (fst res) = option_map Basis.tz (fst res') ->
  TransitPayload.now p = TransitPayload.now p' ->
  TransitPayload.t_date p = TransitPayload.t_date p' ->
  TransitPayload.t_time p = TransitPayload.t_time p' ->
  TransitPayload.t_timezone p = TransitPayload.t_timezone p' ->
  Payload.date (TransitPayload.natal p) = Payload.date (TransitPayload.natal p') ->
  Payload.time (TransitPayload.natal p) = Payload.time (TransitPayload.natal p') ->
  Payload.timezone (TransitPayload.natal p)
  = Payload.timezone (TransitPayload.natal p') ->
  match res with
  | (_, Some err) => Transit_bad_request err
  | (None, None) => Transit_internal_error
  | (Some basis, None) =>
      match transit_moment now_local p (Basis.tz basis) with
      | Moment_raised => Transit_internal_error
      | Moment_missing => Transit_bad_request TRANSIT_TIME_REQUIRED
      | Moment date time_s tz_name =>
          transit_report UT strftime calc_ut local_to_ut p date time_s tz_name
      end
  end
  = match res' with
    | (_, Some err) => Transit_bad_request err
    | (None, None) => Transit_internal_error
    | (Some basis, None) =>
        match transit_moment now_local p' (Basis.tz basis) with
        | Moment_raised => Transit_internal_error
        | Moment_missing => Transit_bad_request TRANSIT_TIME_REQUIRED
        | Moment date time_s tz_name =>
            transit_report UT strftime calc_ut local_to_ut p' date time_s
              tz_name
        end
    end.
Proof.
  destruct res as [[b|] [e|]], res' as [[b'|] [e'|]]; cbn [fst snd option_map];
    intros He Htz Hnow Hd Ht Hz Hnd Hnt Hnz;
    try discriminate; try (injection He as ->); try reflexivity.
  injection Htz as Htz.
  unfold transit_moment, transit_report.
  rewrite Htz, Hnow, Hd, Ht, Hz, Hnd, Hnt, Hnz. reflexivity.
Qed.
End TransitLocation.

(** X26.  Transits do not depend on the place: two [/transits] requests
    that differ only in the coordinates they give get the same response
    (and leave the same rate record). *)
Theorem transits_ignore_location
    (UT : Type) (strftime : UT -> string)
    (calc_ut : Q -> body -> Q * Q * Q * Q)
    (geocoder : string -> option (Q * Q))
    (local_to_ut : string -> string -> string -> string + Q * UT)
    (ASTRO_KEY : option string)
    (now_local : string -> option (string * string))
    (rate : string -> list Q) (now : Q)
    (addr key : option string) (p : TransitPayload.t) (lat lon lat' lon' : Q) :
  transits UT strftime calc_ut geocoder local_to_ut ASTRO_KEY now_local
    rate now
    {| TransitRequest.remote_addr := addr; TransitRequest.x_astro_key := key;
       TransitRequest.json := Some (transit_with_coordinates p lat lon) |}
  = transits UT strftime calc_ut geocoder local_to_ut ASTRO_KEY now_local
      rate now
      {| TransitRequest.remote_addr := addr; TransitRequest.x_astro_key := key;
         TransitRequest.json := Some (transit_with_coordinates p lat' lon') |}.
Proof.
  unfold transits.
  cbn [TransitRequest.remote_addr TransitRequest.json].
  destruct (check_rate _ _ _) as [rate' admitted].
  destruct (negb admitted); [reflexivity|].
  assert (Hkey : forall j j',
             require_key ASTRO_KEY
               (TransitRequest.headers
                  {| TransitRequest.remote_addr := addr;
                     TransitRequest.x_astro_key := key;
                     TransitRequest.json := j |})
             = require_key ASTRO_KEY
                 (TransitRequest.headers
                    {| TransitRequest.remote_addr := addr;
                       TransitRequest.x_astro_key := key;
                       TransitRequest.json := j' |})) by reflexivity.
  rewrite (Hkey _ (Some (transit_with_coordinates p lat' lon'))).
  destruct (negb _); [reflexivity|].
  destruct (natal_payload_located UT geocoder local_to_ut
              (TransitPayload.natal p) lat lon) as [He Htz].
  destruct (natal_payload_located UT geocoder local_to_ut
              (TransitPayload.natal p) lat' lon') as [He' Htz'].
  cbn zeta in He, Htz, He', Htz'.
  cbn [transit_with_coordinates TransitPayload.natal].
  set (res := fst (run geocoder local_to_ut
                     (natal_payload
                        (with_coordinates (TransitPayload.natal p) lat lon)
                        true))) in *.
  set (res' := fst (run geocoder local_to_ut
                      (natal_payload
                         (with_coordinates (TransitPayload.natal p) lat' lon')
                         true))) in *.
  pose proof (transits_after_payload UT strftime calc_ut local_to_ut now_local
                (transit_with_coordinates p lat lon)
                (transit_with_coordinates p lat' lon') res res'
                ltac:(congruence) ltac:(congruence)
                eq_refl eq_refl eq_refl eq_refl eq_refl eq_refl eq_refl)
    as Hsame.
  assert (Hpair : forall (q : TransitPayload.t)
                         (r : option (Basis.t UT) * option string),
             match r with
             | (_, Some err) => (rate', Transit_bad_request err)
             | (None, None) => (rate', Transit_internal_error)
             | (Some basis, None) =>
                 match transit_moment now_local q (Basis.tz basis) with
                 | Moment_raised => (rate', Transit_internal_error)
                 | Moment_missing =>
                     (rate', Transit_bad_request TRANSIT_TIME_REQUIRED)
                 | Moment date time_s tz_name =>
                     (rate', transit_report UT strftime calc_ut local_to_ut q
                               date time_s tz_name)
                 end
             end
             = (rate',
                match r with
                | (_, Some err) => Transit_bad_request err
                | (None, None) => Transit_internal_error
                | (Some basis, None) =>
                    match transit_moment now_local q (Basis.tz basis) with
                    | Moment_raised => Transit_internal_error
                    | Moment_missing =>
                        Transit_bad_request TRANSIT_TIME_REQUIRED
                    | Moment date time_s tz_name =>
                        transit_report UT strftime calc_ut local_to_ut q
                          date time_s tz_name
                    end
                end)).
  { intros q [[b|] [e|]]; try reflexivity.
    destruct (transit_moment now_local q (Basis.tz b)); reflexivity. }
  rewrite (Hpair (transit_with_coordinates p lat lon) res).
  rewrite (Hpair (transit_with_coordinates p lat' lon') res').
  f_equal. exact Hsame.
Qed.

(** X27.  [transits] validates the natal payload with geocoding required:
    when a coordinate is missing and the place does not resolve, the
    request is answered with the geocoding error (unless the rate limit or
    the key check refuse it first), although the place plays no part in
    the transits. *)
Theorem transits_need_place
    (UT : Type) (strftime : UT -> string)
    (calc_ut : Q -> body -> Q * Q * Q * Q)
    (geocoder : string -> option (Q * Q))
    (local_to_ut : string -> string -> string -> string + Q * UT)
    (ASTRO_KEY : option string)
    (now_local : string -> option (string * string))
    (rate : string -> list Q) (now : Q) (req : TransitRequest.t)
    (p : TransitPayload.t) :
  TransitRequest.json req = Some p ->
  truthy (Payload.date (TransitPayload.natal p)) = true ->
  truthy (Payload.time (TransitPayload.natal p)) = true ->
  nonempty (strip (or_empty (Payload.timezone (TransitPayload.natal p)))) = true ->
  Payload.lat (TransitPayload.natal p) = None
  \/ Payload.lon (TransitPayload.natal p) = None ->
  (let city := strip (or_empty (Payload.city (TransitPayload.natal p))) in
   let country := strip (or_empty (Payload.country (TransitPayload.natal p))) in
   geocoder (if nonempty country
             then (city ++ ", " ++ country)%string else city) = None) ->
  let answer := snd (transits UT strftime calc_ut geocoder local_to_ut
                       ASTRO_KEY now_local rate now req) in
  answer = Transit_rate_limited \/ answer = Transit_unauthorized
  \/ answer = Transit_bad_request GEOCODE_FAILED.
Proof.
  intros Hjson Hdate Htime Htz Hmissing Hgeo answer.
  destruct (geocoding UT geocoder local_to_ut (TransitPayload.natal p)
              Hdate Htime Htz Hmissing) as [Hfail _].
  cbn zeta in Hfail, Hgeo. specialize (Hfail Hgeo).
  unfold answer, transits.
  destruct (check_rate _ _ _) as [rate' [|]]; cbn [negb snd]; [|auto].
  destruct (require_key _ _); cbn [negb snd]; [|auto].
  rewrite Hjson, Hfail. cbn [fst snd]. auto.
Qed.

Lemma transits_need_place_witness :
  snd (transits string (fun s => s) Fixture.calc_ut Fixture.geocoder
         Fixture.local_to_ut None fixture_clock Fixture.no_requests 0
         placed_transit_request) = Transit_bad_request GEOCODE_FAILED.
Proof.
  destruct (transits_need_place string (fun s => s) Fixture.calc_ut
              Fixture.geocoder Fixture.local_to_ut None fixture_clock
              Fixture.no_requests 0 placed_transit_request _
              eq_refl eq_refl eq_refl eq_refl (or_introl eq_refl) eq_refl)
    as [H | [H | H]]; [vm_compute in H; discriminate H.. | exact H].
Defined.
